(** * mesh-map: the sample ingestion handler (functions/put-sample.js)

    A shallow embedding of the Pages function that records a wardriving
    sample, and the properties of its merge-and-retry cycle.

    Conventions of the embedding:
    - JavaScript strings are [string]s; edge identifiers are repeater id
      prefixes such as ["7e"], i.e. ASCII text, on which
      [String.prototype.toLowerCase] maps [A]-[Z] to [a]-[z] and leaves
      every other character alone;
    - [Date.now()] and the [time] field of a record are integers ([Z],
      epoch milliseconds);
    - a [null] (no record under a key, no [path] in the body) is [None];
    - the KV namespace is an external service: what it answers to a read,
      what the clock shows and whether it accepts a write are inputs of the
      model (a script indexed by the attempt number), so that every theorem
      quantified over scripts covers every behaviour of the store,
      including stale reads and concurrent writers. *)

From Stdlib Require Import ZArith Ascii String List Bool Lia QArith Qcanon.
From Stdlib Require Import DecimalString DecimalZ.
From stdpp Require Import gmap strings list.
Import ListNotations.

Local Open Scope Z_scope.
Local Open Scope string_scope.
Local Open Scope list_scope.

(** ** Strings *)

(** [c.toLowerCase()] on one ASCII character. *)
Definition lowerChar (c : ascii) : ascii :=
  let n := nat_of_ascii c in
  if ((65 <=? n) && (n <=? 90))%nat then ascii_of_nat (n + 32) else c.

(** [p.toLowerCase()]. *)
Fixpoint toLowerCase (s : string) : string :=
  match s with
  | EmptyString => EmptyString
  | String c rest => String (lowerChar c) (toLowerCase rest)
  end.

(** A string that lowercasing leaves alone. *)
Definition isLowerCase (s : string) : Prop := toLowerCase s = s.

(** Equality of two edge identifiers up to case. *)
Definition eqIgnoreCase (a b : string) : bool :=
  String.eqb (toLowerCase a) (toLowerCase b).

(** ** Edge lists *)

(** [path.includes(p)]: membership by exact string equality. *)
Definition includes (path : list string) (p : string) : bool :=
  existsb (String.eqb p) path.

(** The body of the [forEach] callback of put-sample.js, lines 22-24:
    [if (!metadata.path.includes(p)) metadata.path.push(p)]. *)
Definition pushIfAbsent (path : list string) (p : string) : list string :=
  if includes path p then path else path ++ [p].

(** [existing.forEach(p => ...)] run against [metadata.path]: the array is
    mutated in place, so each membership test sees the pushes made by the
    earlier iterations. *)
Definition mergePath (path existing : list string) : list string :=
  fold_left pushIfAbsent existing path.

(** Membership up to case, the check the specification describes. *)
Definition includesIgnoreCase (path : list string) (p : string) : bool :=
  existsb (eqIgnoreCase p) path.

(** The merge rule in the words of the specification: the new edges, then
    every existing edge not already present under a case-insensitive
    membership check. *)
Definition mergePathIgnoreCase (path existing : list string) : list string :=
  fold_left
    (fun acc p => if includesIgnoreCase acc p then acc else acc ++ [p])
    existing path.

(** The first occurrence of every entry of a list, in order. *)
Fixpoint firstOccurrences (seen l : list string) : list string :=
  match l with
  | [] => []
  | p :: rest =>
      if includes seen p then firstOccurrences seen rest
      else p :: firstOccurrences (seen ++ [p]) rest
  end.

(** Whether the character [c] occurs in [s]. *)
Fixpoint occurs (c : ascii) (s : string) : bool :=
  match s with
  | EmptyString => false
  | String c' rest => Ascii.eqb c c' || occurs c rest
  end.

(** No two entries equal up to case. *)
Definition noDupIgnoreCase (path : list string) : Prop :=
  NoDup (map toLowerCase path).

(** ** Numbers and raw JSON values *)

(** A JavaScript Number.  The handler performs no arithmetic on the
    coordinates: they are validated and rendered into the key.  A finite
    double is therefore modelled by the rational it denotes; [-0] and [0],
    which [===] and string conversion do not tell apart, are the same
    [Finite 0]. *)
Inductive number : Type :=
  | NaN
  | Infinity (negative : bool)
  | Finite (q : Qc).

(** An integer as a Number. *)
Definition ofZ (z : Z) : number := Finite (Q2Qc (inject_Z z)).

(** A field of the request body after [request.json()]; a field that is
    absent reads as [undefined].  An array or object is represented by the
    string that [ToPrimitive] turns it into. *)
Inductive jsValue : Type :=
  | Undefined
  | Null
  | JBool (b : bool)
  | JNum (n : number)
  | JStr (s : string)
  | JObject (primitive : string).

(** [Number.isFinite(n)]. *)
Definition isFinite (n : number) : bool :=
  match n with Finite _ => true | _ => false end.

(** A raw field that is a finite number, the inputs the Location
    Normalizer of the specification accepts. *)
Definition isFiniteNumber (v : jsValue) : bool :=
  match v with JNum n => isFinite n | _ => false end.

(** ** Store records *)

(** The metadata object of a sample: [{ time: time, path: path }]. *)
Record Metadata : Type := { time : Z; path : list string }.

(** What [store.getWithMetadata(key)] resolves to; [null] is [None]. *)
Record getResult : Type :=
  { value : option string; metadata : option Metadata }.

(** The ways a store call is rejected (section 6 of the specification:
    the per-key one-write-per-second condition, or any other fault). *)
Inductive storeError : Type := RateLimited | StoreUnavailable.

(** One round of answers of the outside world to the closure: the result
    of the read, the clock at the time [ageInDays] looks at it, and the
    verdict on the write ([None]: accepted). *)
Record storeReply : Type :=
  { getReply : storeError + getResult;
    clock : Z;
    putReply : option storeError }.

(** The store calls a handler makes, in order. *)
Inductive event : Type :=
  | Get (key : string)
  | Put (key value : string) (m : Metadata) (ttl : option Z)
        (reply : option storeError)
  | Backoff.

(** The milliseconds of one day. *)
Definition dayInMillis : Z := 24 * 60 * 60 * 1000.

(** Modelled from the spec: [ageInDays] is imported from
    content/shared.js, which is not among the sources.  Section 4.3 step
    1b measures the age of a record as [(now - record.time)] in whole
    days; [now] is the [Date.now()] the helper reads. *)
Definition ageInDays (now recorded : Z) : Z := (now - recorded) / dayInMillis.

(** The condition of put-sample.js line 19:
    [resp.value !== null && resp.metadata !== null
     && ageInDays(resp.metadata.time) < 1]. *)
Definition isFresh (resp : getResult) (now : Z) : bool :=
  match value resp with
  | None => false
  | Some _ =>
      match metadata resp with
      | None => false
      | Some old => (ageInDays now (time old) <? 1)%Z
      end
  end.

(** The edges of the record a read returned, [resp.metadata.path]. *)
Definition storedPath (resp : getResult) : list string :=
  match metadata resp with
  | Some old => path old
  | None => []
  end.

(** What one run of the closure leaves behind: the state of the shared
    [metadata] object, the store calls made, and how the closure settled
    ([None]: resolved, [Some e]: rejected with [e]). *)
Record attemptLog : Type :=
  { state : Metadata; events : list event; outcome : option storeError }.

(** The closure passed to [retry], put-sample.js lines 17-32.  [m] is the
    [metadata] object as the closure finds it; the merge pushes onto
    [metadata.path] in place, [metadata.time] is never assigned.  A read
    that rejects ends the closure before the write.  The [console.log] of
    line 28 touches neither the object nor the store and is left out. *)
Definition attempt (key : string) (w : storeReply) (m : Metadata)
  : attemptLog :=
  match getReply w with
  | inl e => {| state := m; events := [Get key]; outcome := Some e |}
  | inr resp =>
      let m' :=
        if isFresh resp (clock w)
        then {| time := time m; path := mergePath (path m) (storedPath resp) |}
        else m in
      {| state := m';
         events := [Get key; Put key "" m' None (putReply w)];
         outcome := putReply w |}
  end.

(** How an ingest ends (section 4.3, failure modes). *)
Inductive ingestResult : Type :=
  | Accepted
  | IngestFailed (e : storeError)
  | RetriesExhausted.

(** Modelled from the spec: [retry] is imported from content/shared.js,
    which is not among the sources.  Section 4.3 step 2: when the cycle is
    rejected with the one-write-per-second condition the entire cycle is
    run again, after a backoff delay, up to a bounded number of attempts;
    any other store error is not retried.  [n] numbers the attempt, [w n]
    is what the outside world answers to it, and the state of the object
    the closure captured is threaded from one attempt to the next. *)
Fixpoint retry (f : storeReply -> Metadata -> attemptLog)
    (w : nat -> storeReply) (maxAttempts n : nat) (m : Metadata)
  : list attemptLog :=
  match maxAttempts with
  | O => []
  | S remaining =>
      let a := f (w n) m in
      a :: match outcome a with
           | Some RateLimited => retry f w remaining (S n) (state a)
           | _ => []
           end
  end.

(** Modelled from the spec: how the promise of [retry] settles.  A write
    accepted resolves it; a rejection other than [RateLimited] surfaces as
    [IngestFailed]; a rate limit that outlasts the budget surfaces as
    [RetriesExhausted]. *)
Definition settle (attempts : list attemptLog) : ingestResult :=
  match last (outcome <$> attempts) with
  | None => RetriesExhausted
  | Some None => Accepted
  | Some (Some RateLimited) => RetriesExhausted
  | Some (Some e) => IngestFailed e
  end.

(** The store calls of a whole ingest: those of each attempt, with the
    backoff delay between one attempt and the next. *)
Fixpoint traceOf (attempts : list attemptLog) : list event :=
  match attempts with
  | [] => []
  | [a] => events a
  | a :: rest => events a ++ Backoff :: traceOf rest
  end.

(** The records the store accepted, in order. *)
Fixpoint accepted (tr : list event) : list (string * (string * Metadata)) :=
  match tr with
  | [] => []
  | Put key v m _ None :: rest => (key, (v, m)) :: accepted rest
  | _ :: rest => accepted rest
  end.

(** The records sent to the store, accepted or not, in order. *)
Fixpoint sent (tr : list event) : list Metadata :=
  match tr with
  | [] => []
  | Put _ _ m _ _ :: rest => m :: sent rest
  | _ :: rest => sent rest
  end.

(** The KV namespace after the accepted writes of a trace. *)
Definition commit (kv : gmap string (string * Metadata)) (tr : list event)
  : gmap string (string * Metadata) :=
  fold_left (fun kv' r => <[fst r := snd r]> kv') (accepted tr) kv.

(** [store.getWithMetadata(key)] against a namespace that answers. *)
Definition getWithMetadata (kv : gmap string (string * Metadata))
    (key : string) : getResult :=
  match kv !! key with
  | Some (v, m) => {| value := Some v; metadata := Some m |}
  | None => {| value := None; metadata := None |}
  end.

(** ** The request and the handler's reaction *)

(** The body of the request, [{ lat, lon, path }], after [request.json()];
    [data_path] is [None] when [data.path] is [null] or absent. *)
Record requestData : Type :=
  { data_lat : jsValue; data_lon : jsValue; data_path : option (list string) }.

(** Why the promise of a handler rejects. *)
Inductive failure : Type :=
  | InvalidLocation
  | StoreFailure (e : storeError).

(** What a handler does with a request: the answer the caller gets (the
    rejection of the handler's promise, which the platform turns into an
    error response, or the body of the [Response] it returns), and the
    attempts of the promise it started without awaiting it. *)
Record reaction : Type :=
  { answer : failure + string; floating : list attemptLog }.

(** ** Key derivation (content/shared.js) *)

Section KeyDeriver.

(** [Number::toString], the conversion a template literal applies. *)
Variable numberToString : number -> string.

(** Modelled from the spec: [sampleKey] is imported from
    content/shared.js, which is not among the sources.  Section 4.2 asks
    for a key that embeds both coordinates in a fixed, unambiguous
    textual layout; the layout is the one the handlers of the repository
    build inline, the fields separated by a bar. *)
Definition sampleKey (lat lon : number) : string :=
  (numberToString lat ++ "|" ++ numberToString lon)%string.

End KeyDeriver.

(** ** functions/put-sample.js *)

Module PutSample.
Section Handler.

(** [parseLocation] of content/shared.js, which is not among the
    sources: [None] when it throws. *)
Variable parseLocation : jsValue -> jsValue -> option (number * number).
Variable numberToString : number -> string.
(** The bound on the number of attempts of [retry]. *)
Variable maxAttempts : nat.

(** Line 10: [(data?.path ?? []).map(p => p.toLowerCase())]. *)
Definition requestPath (data : requestData) : list string :=
  map toLowerCase (default [] (data_path data)).

(** [onRequest], lines 3-35.  [now] is the [Date.now()] of line 9 and
    [w] the answers of the outside world to the successive attempts.
    The promise of [retry] (line 17) is not awaited: line 34 returns the
    response whatever becomes of it. *)
Definition onRequest (data : requestData) (now : Z)
    (w : nat -> storeReply) : reaction :=
  match parseLocation (data_lat data) (data_lon data) with
  | None => {| answer := inl InvalidLocation; floating := [] |}
  | Some (lat, lon) =>
      let key := sampleKey numberToString lat lon in
      let metadata := {| time := now; path := requestPath data |} in
      {| answer := inr "OK";
         floating := retry (attempt key) w maxAttempts 0 metadata |}
  end.

(** The ingest operation of section 4.3 on its own:
    [ingest(key, newTimestamp, newEdges)]. *)
Definition ingest (key : string) (newTimestamp : Z)
    (newEdges : list string) (w : nat -> storeReply) : list attemptLog :=
  retry (attempt key) w maxAttempts 0
        {| time := newTimestamp; path := newEdges |}.

End Handler.
End PutSample.

(** ** Location validation (content/shared.js) *)

(** A raw field read as a coordinate: the number itself when the field
    is a finite number, nothing otherwise. *)
Definition finiteNumber (raw : jsValue) : option number :=
  match raw with
  | JNum (Finite q) => Some (Finite q)
  | _ => None
  end.

(** Modelled from the spec: [parseLocation] is imported from
    content/shared.js, which is not among the sources.  Section 4.1: the
    normalizer fails with [InvalidLocation] ([None]) when either input is
    not a finite number (non-numeric, [NaN], or missing); it does no range
    clamping, a numeric value passes through unchanged. *)
Definition parseLocation (rawLat rawLon : jsValue)
  : option (number * number) :=
  match finiteNumber rawLat, finiteNumber rawLon with
  | Some lat, Some lon => Some (lat, lon)
  | _, _ => None
  end.

(** ** A namespace no one else writes to *)

(** The answers of a namespace holding [kv] while one ingest runs against
    it undisturbed: every read of [key] returns what [kv] holds; the clock
    and the verdicts on the writes are free. *)
Definition answering (kv : gmap string (string * Metadata)) (key : string)
    (clockAt : nat -> Z) (verdict : nat -> option storeError)
  : nat -> storeReply :=
  fun n =>
    {| getReply := inr (getWithMetadata kv key);
       clock := clockAt n;
       putReply := verdict n |}.

(** Every record of the namespace holds lowercase edges only. *)
Definition lowercased (kv : gmap string (string * Metadata)) : Prop :=
  forall key v m, kv !! key = Some (v, m) -> Forall isLowerCase (path m).

(** No record of the namespace holds two edges equal up to case. *)
Definition duplicateFree (kv : gmap string (string * Metadata)) : Prop :=
  forall key v m, kv !! key = Some (v, m) -> noDupIgnoreCase (path m).

(** The reading of a record that the staleness policy treats as stale:
    no record, or one whose age in whole days is at least 1. *)
Definition staleOrAbsent (resp : getResult) (now : Z) : Prop :=
  value resp = None \/ metadata resp = None \/
  exists old, metadata resp = Some old /\ 1 <= ageInDays now (time old).

(** The state of the [metadata] object when attempt [i] starts: the object
    built from the request for the first attempt, what the previous
    attempt left for the others. *)
Definition stateBefore (m0 : Metadata) (attempts : list attemptLog)
    (i : nat) : Metadata :=
  match i with
  | O => m0
  | S j => default m0 (state <$> attempts !! j)
  end.

(** ** Renderings and scripts used to exercise the statements *)

(** An integer in decimal, as [Number::toString] prints it. *)
Definition decimal (z : Z) : string :=
  NilEmpty.string_of_int (Z.to_int z).

(** A total rendering of numbers: the three special values as JavaScript
    spells them, integers in decimal, any other rational as a fraction. *)
Definition render (x : number) : string :=
  match x with
  | NaN => "NaN"
  | Infinity false => "Infinity"
  | Infinity true => "-Infinity"
  | Finite q =>
      match Qden (this q) with
      | xH => decimal (Qnum (this q))
      | d => (decimal (Qnum (this q)) ++ "/" ++ decimal (Zpos d))%string
      end
  end.

(** Characters of a decimal numeral. *)
Definition isDecimalChar (c : ascii) : bool :=
  existsb (Ascii.eqb c) (list_ascii_of_string "-0123456789").

(** A sighting at a fixed position with the given edges. *)
Definition sighting (edges : list string) : requestData :=
  {| data_lat := JNum (ofZ 47); data_lon := JNum (ofZ (-122));
     data_path := Some edges |}.

(** A record read back from the store. *)
Definition found (t : Z) (edges : list string) : storeError + getResult :=
  inr {| value := Some ""; metadata := Some {| time := t; path := edges |} |}.

(** The read of a key that holds nothing. *)
Definition absent : storeError + getResult :=
  inr {| value := None; metadata := None |}.

(** A store that holds a record written at time 0 with edges [a], [b] and
    accepts the write. *)
Definition freshStore (_ : nat) : storeReply :=
  {| getReply := found 0 ["a"; "b"]; clock := 1000; putReply := None |}.

(** A store whose record carries an uppercase edge. *)
Definition upperStore (_ : nat) : storeReply :=
  {| getReply := found 0 ["A"]; clock := 1000; putReply := None |}.

(** A store whose record, written at time 0, is just under a day old at
    the first attempt, which it rejects with the rate limit, and just over
    a day old at the second, which it accepts. *)
Definition agingStore (n : nat) : storeReply :=
  match n with
  | O => {| getReply := found 0 ["x"]; clock := dayInMillis - 1;
            putReply := Some RateLimited |}
  | _ => {| getReply := found 0 ["x"]; clock := dayInMillis + 499;
            putReply := None |}
  end.

(** A store that rejects the first write with the rate limit after a read
    of a fresh record, then shows no record and accepts. *)
Definition vanishingStore (n : nat) : storeReply :=
  match n with
  | O => {| getReply := found 0 ["x"]; clock := 1000;
            putReply := Some RateLimited |}
  | _ => {| getReply := absent; clock := 2000; putReply := None |}
  end.

(** A store whose record is replaced by a concurrent writer between the
    first attempt, which it rejects with the rate limit, and the second,
    which it accepts. *)
Definition replacingStore (n : nat) : storeReply :=
  match n with
  | O => {| getReply := found 0 ["x"]; clock := 1000;
            putReply := Some RateLimited |}
  | _ => {| getReply := found 500 ["y"]; clock := 2000; putReply := None |}
  end.

(** A store that rejects the first two writes with the rate limit, each
    time showing a different fresh record, then accepts. *)
Definition busyStore (n : nat) : storeReply :=
  match n with
  | O => {| getReply := found 0 ["x"]; clock := 1000;
            putReply := Some RateLimited |}
  | S O => {| getReply := found 500 ["y"; "x"]; clock := 2000;
              putReply := Some RateLimited |}
  | _ => {| getReply := found 1500 ["z"]; clock := 3000; putReply := None |}
  end.

(** A store that always rejects the write with the rate limit. *)
Definition limitedStore (_ : nat) : storeReply :=
  {| getReply := absent; clock := 1000; putReply := Some RateLimited |}.

(** A store whose writes fail for a reason other than the rate limit. *)
Definition brokenStore (_ : nat) : storeReply :=
  {| getReply := absent; clock := 1000; putReply := Some StoreUnavailable |}.

(** A namespace with one record, under the key [k]. *)
Definition knownStore : gmap string (string * Metadata) :=
  {[ "k" := ("", {| time := 0; path := ["a"; "b"] |}) ]}.

(** A store with nothing under the key, which accepts the write. *)
Definition emptyStore (_ : nat) : storeReply :=
  {| getReply := absent; clock := 1000; putReply := None |}.

(** ** The reads of an ingest *)

(** The edges one run of the closure takes from the store: those of the
    record it reads, if the read succeeds and the record is fresh. *)
Definition freshEdges (w : storeReply) : list string :=
  match getReply w with
  | inl _ => []
  | inr resp => if isFresh resp (clock w) then storedPath resp else []
  end.

(** The edges taken from the store by the attempts 0 to [i], in order. *)
Fixpoint readSoFar (w : nat -> storeReply) (i : nat) : list string :=
  match i with
  | O => freshEdges (w O)
  | S j => readSoFar w j ++ freshEdges (w (S j))
  end.

(** * Properties *)

(** ** Lowercasing *)

Lemma lowerChar_idem (c : ascii) : lowerChar (lowerChar c) = lowerChar c.
Proof. destruct c as [[] [] [] [] [] [] [] []]; reflexivity. Qed.

Lemma toLowerCase_idem (s : string) : toLowerCase (toLowerCase s) = toLowerCase s.
Proof.
  induction s as [|c s IH]; simpl; [reflexivity|].
  now rewrite lowerChar_idem, IH.
Qed.

Lemma toLowerCase_isLowerCase (s : string) : isLowerCase (toLowerCase s).
Proof. apply toLowerCase_idem. Qed.

Lemma requestPath_lower (data : requestData) :
  Forall isLowerCase (PutSample.requestPath data).
Proof.
  unfold PutSample.requestPath.
  induction (default [] (data_path data)) as [|p l IH]; simpl;
    constructor; auto using toLowerCase_isLowerCase.
Qed.

Lemma map_lower_id (l : list string) :
  Forall isLowerCase l -> map toLowerCase l = l.
Proof.
  induction 1 as [|p l Hp _ IH]; simpl; [reflexivity|].
  now rewrite Hp, IH.
Qed.

(** ** Membership *)

Lemma includes_true (l : list string) (p : string) :
  includes l p = true <-> p ∈ l.
Proof.
  unfold includes. rewrite existsb_exists. split.
  - intros (q & Hin & Heq). apply String.eqb_eq in Heq. subst q.
    now apply list_elem_of_In.
  - intros Hin. exists p. split; [now apply list_elem_of_In|].
    apply String.eqb_refl.
Qed.

Lemma includes_false (l : list string) (p : string) :
  includes l p = false <-> p ∉ l.
Proof.
  rewrite <- includes_true. destruct (includes l p); split; congruence.
Qed.

Lemma includes_app (l1 l2 : list string) (p : string) :
  includes (l1 ++ l2) p = includes l1 p || includes l2 p.
Proof. apply existsb_app. Qed.

Lemma includesIgnoreCase_lower (l : list string) (p : string) :
  Forall isLowerCase l -> isLowerCase p ->
  includesIgnoreCase l p = includes l p.
Proof.
  intros Hl Hp. unfold includesIgnoreCase, includes.
  induction Hl as [|q l Hq _ IH]; simpl; [reflexivity|].
  rewrite IH. unfold eqIgnoreCase. now rewrite Hp, Hq.
Qed.

(** ** The merge loop *)

Lemma mergePath_cons (acc : list string) (p : string) (l : list string) :
  mergePath acc (p :: l) = mergePath (pushIfAbsent acc p) l.
Proof. reflexivity. Qed.

(** The loop only appends: the list it started from stays in front, and
    what follows are the first occurrences of the edges not met so far. *)
Lemma mergePath_firstOccurrences (acc l : list string) :
  mergePath acc l = acc ++ firstOccurrences acc l.
Proof.
  revert acc. induction l as [|p l IH]; intros acc.
  - unfold mergePath. simpl. now rewrite app_nil_r.
  - rewrite mergePath_cons. cbn [firstOccurrences]. unfold pushIfAbsent.
    destruct (includes acc p); [apply IH|].
    rewrite IH. now rewrite <- app_assoc.
Qed.

Lemma firstOccurrences_ext (s s' l : list string) :
  (forall x, includes s x = includes s' x) ->
  firstOccurrences s l = firstOccurrences s' l.
Proof.
  revert s s'. induction l as [|p l IH]; intros s s' Hext; simpl;
    [reflexivity|].
  rewrite <- Hext. destruct (includes s p); [now apply IH|].
  f_equal. apply IH. intros x. now rewrite !includes_app, Hext.
Qed.

(** What is appended: the existing edges absent from the list the loop
    started from, each once, in the order of the existing record. *)
Lemma firstOccurrences_filter (s t l : list string) :
  firstOccurrences (s ++ t) l
  = filter (fun p => includes s p = false) (firstOccurrences t l).
Proof.
  revert t. induction l as [|p l IH]; intros t; simpl; [reflexivity|].
  rewrite includes_app.
  destruct (includes t p) eqn:Ht.
  - rewrite orb_true_r. apply IH.
  - rewrite orb_false_r. destruct (includes s p) eqn:Hs.
    + rewrite filter_cons_False by congruence.
      rewrite <- IH. apply firstOccurrences_ext. intros x.
      rewrite !includes_app. simpl.
      destruct (String.eqb_spec x p) as [->|Hne].
      * now rewrite Hs.
      * now rewrite !orb_false_r.
    + rewrite filter_cons_True by assumption.
      f_equal. rewrite <- IH. now rewrite <- app_assoc.
Qed.

Lemma firstOccurrences_fresh (s l : list string) :
  forall x, x ∈ firstOccurrences s l -> x ∈ l /\ x ∉ s.
Proof.
  revert s. induction l as [|p l IH]; intros s x; simpl.
  - intros H. inversion H.
  - destruct (includes s p) eqn:Hs.
    + intros H. apply IH in H as [H1 H2]. split; [now right|assumption].
    + intros H. apply elem_of_cons in H as [->|H].
      * split; [now left|]. now apply includes_false.
      * apply IH in H as [H1 H2]. split; [now right|].
        intros Hx. apply H2. apply elem_of_app. now left.
Qed.

Lemma firstOccurrences_NoDup (s l : list string) :
  NoDup (firstOccurrences s l).
Proof.
  revert s. induction l as [|p l IH]; intros s; simpl.
  - constructor.
  - destruct (includes s p); [apply IH|].
    constructor; [|apply IH].
    intros H. apply firstOccurrences_fresh in H as [_ H].
    apply H. apply elem_of_app. right. now left.
Qed.

(** A record without repeated edges is its own list of first
    occurrences. *)
Lemma firstOccurrences_id (s l : list string) :
  NoDup l -> (forall x, x ∈ l -> x ∉ s) -> firstOccurrences s l = l.
Proof.
  intros Hnd. revert s. induction Hnd as [|p l Hp Hnd IH]; intros s Hs;
    simpl; [reflexivity|].
  assert (includes s p = false) as ->.
  { apply includes_false, Hs. now left. }
  f_equal. apply IH. intros x Hx Hin.
  apply elem_of_app in Hin as [Hin|Hin].
  - revert Hin. apply Hs. now right.
  - apply list_elem_of_singleton in Hin. now subst.
Qed.

Lemma mergePath_NoDup (acc l : list string) :
  NoDup acc -> NoDup (mergePath acc l).
Proof.
  intros Hacc. rewrite mergePath_firstOccurrences.
  apply NoDup_app. split; [assumption|]. split.
  - intros x Hx Hin. now apply firstOccurrences_fresh in Hin as [_ Hin].
  - apply firstOccurrences_NoDup.
Qed.

Lemma mergePath_Forall (P : string -> Prop) (acc l : list string) :
  Forall P acc -> Forall P l -> Forall P (mergePath acc l).
Proof.
  intros Hacc Hl. rewrite mergePath_firstOccurrences.
  apply Forall_app. split; [assumption|].
  rewrite Forall_forall in Hl |- *.
  intros x Hx. apply Hl. now apply firstOccurrences_fresh in Hx as [Hx _].
Qed.

Lemma mergePath_known (acc l : list string) :
  (forall x, x ∈ l -> x ∈ acc) -> mergePath acc l = acc.
Proof.
  induction l as [|p l IH]; intros Hl; [reflexivity|].
  rewrite mergePath_cons. unfold pushIfAbsent.
  assert (includes acc p = true) as ->.
  { apply includes_true, Hl. now left. }
  apply IH. intros x Hx. apply Hl. now right.
Qed.

Lemma mergePath_app (acc l1 l2 : list string) :
  mergePath acc (l1 ++ l2) = mergePath (mergePath acc l1) l2.
Proof. apply fold_left_app. Qed.

(** Merging the same record a second time changes nothing. *)
Lemma mergePath_idem (acc l : list string) :
  mergePath acc (mergePath acc l) = mergePath acc l.
Proof.
  rewrite (mergePath_firstOccurrences acc l) at 1.
  rewrite mergePath_app.
  rewrite (mergePath_known acc acc) by auto.
  rewrite !mergePath_firstOccurrences. f_equal.
  apply firstOccurrences_id.
  - apply firstOccurrences_NoDup.
  - intros x Hx. now apply firstOccurrences_fresh in Hx as [_ Hx].
Qed.

(** On lowercase lists the exact membership test of the code and the
    case-insensitive one of the specification build the same list. *)
Lemma mergePathIgnoreCase_lower (acc l : list string) :
  Forall isLowerCase acc -> Forall isLowerCase l ->
  mergePathIgnoreCase acc l = mergePath acc l.
Proof.
  intros Hacc Hl. revert acc Hacc.
  induction Hl as [|p l Hp _ IH]; intros acc Hacc; [reflexivity|].
  unfold mergePathIgnoreCase, mergePath in *. simpl.
  rewrite includesIgnoreCase_lower by assumption.
  unfold pushIfAbsent. destruct (includes acc p); [now apply IH|].
  apply IH. apply Forall_app. split; [assumption|]. now constructor.
Qed.

(** ** Freshness *)

(** Whole days or not, an age is below one day exactly when less than a
    day of milliseconds has passed. *)
Lemma ageInDays_lt_1 (now t : Z) :
  ageInDays now t < 1 <-> now - t < dayInMillis.
Proof.
  unfold ageInDays. assert (0 < dayInMillis) as Hday by reflexivity.
  split; intros H.
  - destruct (Z_lt_le_dec (now - t) dayInMillis) as [Hlt|Hge];
      [assumption|].
    assert (1 <= (now - t) / dayInMillis)
      by (apply Z.div_le_lower_bound; lia).
    lia.
  - apply Z.div_lt_upper_bound; lia.
Qed.

Lemma isFresh_true (resp : getResult) (now : Z) :
  isFresh resp now = true <->
  exists v old, value resp = Some v /\ metadata resp = Some old /\
                ageInDays now (time old) < 1.
Proof.
  unfold isFresh. destruct (value resp) as [v|], (metadata resp) as [old|];
    split; try discriminate; try (intros (? & ? & ? & ? & ?); discriminate).
  - intros H. apply Z.ltb_lt in H. eauto.
  - intros (v' & old' & _ & [= <-] & H). now apply Z.ltb_lt.
Qed.

Lemma isFresh_false (resp : getResult) (now : Z) :
  isFresh resp now = false <-> staleOrAbsent resp now.
Proof.
  unfold isFresh, staleOrAbsent.
  destruct (value resp) as [v|], (metadata resp) as [old|]; split; auto.
  - intros H. apply Z.ltb_ge in H. right. right. eauto.
  - intros [H|[H|(old' & [= <-] & H)]]; try discriminate.
    now apply Z.ltb_ge.
Qed.

(** ** One run of the closure *)

Lemma attempt_time (key : string) (w : storeReply) (m : Metadata) :
  time (state (attempt key w m)) = time m.
Proof.
  unfold attempt. destruct (getReply w) as [e|resp]; simpl; [reflexivity|].
  now destruct (isFresh resp (clock w)).
Qed.

Lemma attempt_read_fresh (key : string) (w : storeReply) (m : Metadata)
    (resp : getResult) :
  getReply w = inr resp -> isFresh resp (clock w) = true ->
  attempt key w m =
    let m' := {| time := time m;
                 path := mergePath (path m) (storedPath resp) |} in
    {| state := m';
       events := [Get key; Put key "" m' None (putReply w)];
       outcome := putReply w |}.
Proof. intros Hget Hfresh. unfold attempt. now rewrite Hget, Hfresh. Qed.

Lemma attempt_read_stale (key : string) (w : storeReply) (m : Metadata)
    (resp : getResult) :
  getReply w = inr resp -> isFresh resp (clock w) = false ->
  attempt key w m =
    {| state := m;
       events := [Get key; Put key "" m None (putReply w)];
       outcome := putReply w |}.
Proof. intros Hget Hstale. unfold attempt. now rewrite Hget, Hstale. Qed.

Lemma attempt_prefix (key : string) (w : storeReply) (m : Metadata) :
  path m `prefix_of` path (state (attempt key w m)).
Proof.
  unfold attempt. destruct (getReply w) as [e|resp]; simpl; [reflexivity|].
  destruct (isFresh resp (clock w)); simpl; [|reflexivity].
  rewrite mergePath_firstOccurrences. now apply prefix_app_r.
Qed.

(** The closure reads before it writes, and sends what it leaves in the
    shared object. *)
Lemma attempt_events (key : string) (w : storeReply) (m : Metadata) :
  let a := attempt key w m in
  events a = [Get key] \/
  events a = [Get key; Put key "" (state a) None (outcome a)].
Proof.
  unfold attempt. destruct (getReply w) as [e|resp]; simpl; auto.
Qed.

(** ** The retry loop *)

Section Retry.

Variable f : storeReply -> Metadata -> attemptLog.
Variable w : nat -> storeReply.


Lemma retry_first (maxAttempts n : nat) (m : Metadata) (a : attemptLog) :
  retry f w maxAttempts n m !! 0%nat = Some a -> a = f (w n) m.
Proof. destruct maxAttempts; simpl; congruence. Qed.

Lemma retry_next (maxAttempts n : nat) (m : Metadata) (i : nat)
    (a b : attemptLog) :
  retry f w maxAttempts n m !! i = Some a ->
  retry f w maxAttempts n m !! S i = Some b ->
  outcome a = Some RateLimited /\ b = f (w (n + S i)%nat) (state a).
Proof.
  revert n m i. induction maxAttempts as [|k IH]; intros n m i;
    [discriminate|].
  simpl. destruct i as [|i]; simpl.
  - intros [= <-]. destruct (outcome (f (w n) m)) as [[]|] eqn:Hout;
      try discriminate.
    intros Hb. apply retry_first in Hb. split; [reflexivity|].
    now rewrite Nat.add_1_r.
  - destruct (outcome (f (w n) m)) as [[]|]; try discriminate.
    intros Ha Hb. destruct (IH _ _ _ Ha Hb) as [Hout ->].
    split; [assumption|]. f_equal. f_equal. lia.
Qed.



End Retry.

(** ** The attempts of an ingest *)

Section Ingest.

Variable maxAttempts : nat.
Variable key : string.
Variable newTimestamp : Z.
Variable newEdges : list string.
Variable w : nat -> storeReply.

Local Abbreviation m0 := {| time := newTimestamp; path := newEdges |}.
Local Abbreviation log :=
  (PutSample.ingest maxAttempts key newTimestamp newEdges w).

(** Every attempt is the closure run on the answers of its own round,
    starting from the object as the previous attempt left it. *)
Lemma ingest_attempt (i : nat) (a : attemptLog) :
  log !! i = Some a -> a = attempt key (w i) (stateBefore m0 log i).
Proof.
  intros Ha. destruct i as [|j].
  - apply retry_first in Ha. exact Ha.
  - destruct (log !! j) as [b|] eqn:Hb.
    + destruct (retry_next _ _ _ _ _ _ _ _ Hb Ha) as [_ ->].
      simpl. fold log. now rewrite Hb.
    + apply lookup_lt_Some in Ha. apply lookup_ge_None in Hb. lia.
Qed.

Lemma ingest_next (i : nat) (a b : attemptLog) :
  log !! i = Some a -> log !! S i = Some b ->
  outcome a = Some RateLimited /\ b = attempt key (w (S i)) (state a).
Proof. intros Ha Hb. exact (retry_next _ _ _ _ _ _ _ _ Ha Hb). Qed.

(** A property of the shared object that every run of the closure
    preserves holds of it after every attempt. *)
Lemma ingest_invariant (P : Metadata -> Prop) :
  P m0 ->
  (forall i m, P m -> P (state (attempt key (w i) m))) ->
  forall i, P (stateBefore m0 log i) /\
            forall a, log !! i = Some a -> P (state a).
Proof.
  intros H0 Hstep. induction i as [|i IH].
  - split; [exact H0|]. intros a Ha.
    rewrite (ingest_attempt _ _ Ha). now apply Hstep.
  - assert (P (stateBefore m0 log (S i))) as HS.
    { simpl. destruct (log !! i) as [b|] eqn:Hb; simpl; [|exact H0].
      now apply IH. }
    split; [exact HS|]. intros a Ha.
    rewrite (ingest_attempt _ _ Ha). now apply Hstep.
Qed.

Lemma ingest_time (i : nat) (a : attemptLog) :
  log !! i = Some a -> time (state a) = newTimestamp.
Proof.
  apply (ingest_invariant (fun m => time m = newTimestamp)).
  - reflexivity.
  - intros j m Hm. now rewrite attempt_time.
Qed.

Lemma ingest_grows (i j : nat) (a b : attemptLog) :
  (i <= j)%nat -> log !! i = Some a -> log !! j = Some b ->
  path (state a) `prefix_of` path (state b).
Proof.
  intros Hij Ha. revert b. induction Hij as [|j Hij IH]; intros b Hb.
  - rewrite Ha in Hb. injection Hb as ->. reflexivity.
  - destruct (log !! j) as [c|] eqn:Hc.
    + destruct (ingest_next _ _ _ Hc Hb) as [_ ->].
      etrans; [now apply IH|]. apply attempt_prefix.
    + apply lookup_lt_Some in Hb. apply lookup_ge_None in Hc. lia.
Qed.


End Ingest.

(** ** Traces *)

Lemma sent_app (tr1 tr2 : list event) :
  sent (tr1 ++ tr2) = sent tr1 ++ sent tr2.
Proof.
  induction tr1 as [|e tr1 IH]; [reflexivity|].
  destruct e; simpl; now rewrite IH.
Qed.

Lemma accepted_app (tr1 tr2 : list event) :
  accepted (tr1 ++ tr2) = accepted tr1 ++ accepted tr2.
Proof.
  induction tr1 as [|e tr1 IH]; [reflexivity|].
  destruct e as [k|k v m ttl [r|]|]; simpl; now rewrite IH.
Qed.

Lemma traceOf_cons (a : attemptLog) (rest : list attemptLog) :
  traceOf (a :: rest) =
    events a ++ match rest with [] => [] | _ => Backoff :: traceOf rest end.
Proof. destruct rest; simpl; [now rewrite app_nil_r|reflexivity]. Qed.

Lemma sent_traceOf (P : Metadata -> Prop) (attempts : list attemptLog) :
  Forall (fun a => Forall P (sent (events a))) attempts ->
  Forall P (sent (traceOf attempts)).
Proof.
  induction 1 as [|a rest Ha _ IH]; [constructor|].
  rewrite traceOf_cons, sent_app. apply Forall_app. split; [exact Ha|].
  destruct rest; [constructor|exact IH].
Qed.

Lemma accepted_traceOf (P : string * (string * Metadata) -> Prop)
    (attempts : list attemptLog) :
  Forall (fun a => Forall P (accepted (events a))) attempts ->
  Forall P (accepted (traceOf attempts)).
Proof.
  induction 1 as [|a rest Ha _ IH]; [constructor|].
  rewrite traceOf_cons, accepted_app. apply Forall_app.
  split; [exact Ha|]. destruct rest; [constructor|exact IH].
Qed.

(** What the closure sends is the shared object as it leaves it. *)
Lemma attempt_sent (key : string) (w : storeReply) (m : Metadata) :
  let a := attempt key w m in
  sent (events a) = [] \/ sent (events a) = [state a].
Proof.
  unfold attempt. destruct (getReply w) as [e|resp]; simpl; auto.
Qed.

(** What the store accepts from the closure is that object, under the key
    of the request, and only when the closure resolved. *)
Lemma attempt_accepted (key : string) (w : storeReply) (m : Metadata) :
  let a := attempt key w m in
  accepted (events a) =
    match outcome a with
    | None => [(key, ("", state a))]
    | Some _ => []
    end.
Proof.
  unfold attempt. destruct (getReply w) as [e|resp]; simpl; [reflexivity|].
  now destruct (putReply w).
Qed.

(** The promise the handler leaves floating is the ingest of the
    lowercased path under the key of the parsed location. *)
Lemma onRequest_floating
    (parseLocation : jsValue -> jsValue -> option (number * number))
    (numberToString : number -> string) (maxAttempts : nat)
    (data : requestData) (now : Z) (w : nat -> storeReply)
    (lat lon : number) :
  parseLocation (data_lat data) (data_lon data) = Some (lat, lon) ->
  PutSample.onRequest parseLocation numberToString maxAttempts data now w =
    {| answer := inr "OK";
       floating :=
         PutSample.ingest maxAttempts (sampleKey numberToString lat lon) now
           (PutSample.requestPath data) w |}.
Proof. intros Hparse. unfold PutSample.onRequest. now rewrite Hparse. Qed.

Lemma onRequest_invalid
    (parseLocation : jsValue -> jsValue -> option (number * number))
    (numberToString : number -> string) (maxAttempts : nat)
    (data : requestData) (now : Z) (w : nat -> storeReply) :
  parseLocation (data_lat data) (data_lon data) = None ->
  PutSample.onRequest parseLocation numberToString maxAttempts data now w =
    {| answer := inl InvalidLocation; floating := [] |}.
Proof. intros Hparse. unfold PutSample.onRequest. now rewrite Hparse. Qed.

(** * The merge rule *)

(** C1 (counterexample) -- First scenario: the first cycle of an ingest
    of the new edge [n] merges a fresh record holding [x] and is rejected
    with the rate limit; the retried cycle reads a fresh record holding
    [y].  The rule as claimed yields the new edges followed by the edges
    of the existing record, [n], [y]; the handler writes [n], [x], [y].
    Second scenario, with a record that another writer stored: the fresh
    record holds the edge [A] and the sighting brings [a].  [A] is
    already present under a case-insensitive membership check, so the rule
    as claimed yields [a] alone; the handler tests with [includes] and
    writes [a] followed by [A]. *)
Lemma merge_rule_counterexample :
  (getReply (replacingStore 1) = found 500 ["y"] /\
   ageInDays (clock (replacingStore 1)) 500 < 1 /\
   PutSample.requestPath (sighting ["n"]) = ["n"] /\
   accepted (traceOf (PutSample.ingest 3 "k" 1000
                        (PutSample.requestPath (sighting ["n"]))
                        replacingStore))
     = [("k", ("", {| time := 1000; path := ["n"; "x"; "y"] |}))] /\
   mergePathIgnoreCase ["n"] ["y"] = ["n"; "y"]) /\
  (getReply (upperStore 0) = found 0 ["A"] /\
   ageInDays (clock (upperStore 0)) 0 < 1 /\
   PutSample.requestPath (sighting ["a"]) = ["a"] /\
   accepted (traceOf (PutSample.ingest 3 "k" 1000
                        (PutSample.requestPath (sighting ["a"]))
                        upperStore))
     = [("k", ("", {| time := 1000; path := ["a"; "A"] |}))] /\
   includesIgnoreCase ["a"] "A" = true /\
   mergePathIgnoreCase ["a"] ["A"] = ["a"]).
Proof. repeat split; reflexivity. Qed.

(** Fed lowercase edges, the closure keeps the shared list lowercase. *)
Lemma attempt_keeps_lowercase (key : string) (w : storeReply)
    (m : Metadata) :
  Forall isLowerCase (freshEdges w) ->
  Forall isLowerCase (path m) ->
  Forall isLowerCase (path (state (attempt key w m))).
Proof.
  unfold attempt, freshEdges.
  destruct (getReply w) as [e|resp]; simpl; [auto|].
  destruct (isFresh resp (clock w)); simpl; [|auto].
  intros Hread Hm. now apply mergePath_Forall.
Qed.

(** C1 (as amended) -- In every write cycle of an ingest that reads a
    record strictly less than one day old, the outgoing edge list is the
    list the ingest holds going into the cycle (on the first cycle the new
    edges, lowercased, in their given order; on a retry the list the
    previous cycle left) followed by every edge of the existing record
    that is not already in it under exact, case-sensitive string
    comparison, each once, in the existing record's order.  Whenever both
    the held list and the existing record's edges are all lowercase, this
    is exactly the list the case-insensitive membership check builds from
    the held list; that holds on the first cycle as soon as the existing
    record's edges are lowercase, and on every cycle when all fresh
    records the ingest reads are lowercase. *)
Theorem fresh_record_merge_rule (maxAttempts : nat) (key : string)
    (now : Z) (data : requestData) (w : nat -> storeReply)
    (i : nat) (a : attemptLog) (v : string) (old : Metadata) :
  let attempts :=
    PutSample.ingest maxAttempts key now (PutSample.requestPath data) w in
  let held :=
    path (stateBefore {| time := now; path := PutSample.requestPath data |}
            attempts i) in
  attempts !! i = Some a ->
  getReply (w i) = inr {| value := Some v; metadata := Some old |} ->
  ageInDays (clock (w i)) (time old) < 1 ->
  path (state a)
    = held ++ filter (fun p => includes held p = false)
                     (firstOccurrences [] (path old))
  /\ (NoDup (path old) ->
      path (state a)
        = held ++ filter (fun p => includes held p = false) (path old))
  /\ (Forall isLowerCase held -> Forall isLowerCase (path old) ->
      path (state a) = mergePathIgnoreCase held (path old))
  /\ (i = 0%nat -> held = map toLowerCase (default [] (data_path data)))
  /\ (i = 0%nat -> Forall isLowerCase (path old) ->
      path (state a)
      = mergePathIgnoreCase (map toLowerCase (default [] (data_path data)))
          (path old))
  /\ ((forall n, Forall isLowerCase (freshEdges (w n))) ->
      Forall isLowerCase held /\
      Forall isLowerCase (path old) /\
      path (state a) = mergePathIgnoreCase held (path old)).
Proof.
  intros attempts held Ha Hget Hage.
  assert (isFresh {| value := Some v; metadata := Some old |} (clock (w i))
          = true) as Hfresh.
  { apply isFresh_true. simpl. eauto. }
  assert (path (state a) = mergePath held (path old)) as Hmerge.
  { rewrite (ingest_attempt _ _ _ _ _ _ _ Ha).
    now rewrite (attempt_read_fresh _ _ _ _ Hget). }
  assert (firstOccurrences held (path old)
          = filter (fun p => includes held p = false)
                   (firstOccurrences [] (path old))) as Hfilter.
  { rewrite <- firstOccurrences_filter. now rewrite app_nil_r. }
  assert (Forall isLowerCase held -> Forall isLowerCase (path old) ->
          path (state a) = mergePathIgnoreCase held (path old)) as Hfold.
  { intros Hheld Hold. now rewrite mergePathIgnoreCase_lower. }
  split; [|split; [|split; [|split; [|split]]]].
  - now rewrite Hmerge, mergePath_firstOccurrences, Hfilter.
  - intros Hnd.
    rewrite Hmerge, mergePath_firstOccurrences, Hfilter.
    rewrite (firstOccurrences_id [] (path old)); [reflexivity|exact Hnd|].
    intros x _ Hx. inversion Hx.
  - exact Hfold.
  - intros ->. reflexivity.
  - intros Hi Hold. subst i. apply Hfold; [|exact Hold].
    apply requestPath_lower.
  - intros Hreads.
    assert (Forall isLowerCase held) as Hheld.
    { apply (ingest_invariant maxAttempts key now
               (PutSample.requestPath data) w
               (fun m => Forall isLowerCase (path m))).
      - apply requestPath_lower.
      - intros j m. now apply attempt_keeps_lowercase. }
    assert (Forall isLowerCase (path old)) as Hold.
    { specialize (Hreads i). unfold freshEdges in Hreads.
      now rewrite Hget, Hfresh in Hreads. }
    auto.
Qed.

(** The example of the specification: existing edges [a], [b] merged with
    the new edges [B], [c] give [b], [c], [a]. *)
Lemma fresh_record_merge_rule_witness :
  path (state (attempt "k" (freshStore 0)
                 {| time := 1000;
                    path := PutSample.requestPath (sighting ["B"; "c"]) |}))
  = ["b"; "c"; "a"].
Proof.
  exact (proj1 (fresh_record_merge_rule 3 "k" 1000 (sighting ["B"; "c"])
                  freshStore 0 _ "" {| time := 0; path := ["a"; "b"] |}
                  eq_refl eq_refl eq_refl)).
Defined.

(** * The staleness policy *)

(** C2 (counterexample) -- The first cycle reads a fresh record holding
    [x] and merges it; its write is rejected with the rate limit.  The
    second cycle finds no record under the key (first scenario), or finds
    the record one whole day old (second scenario); yet the record it
    writes, which the store accepts, still holds the stored edge [x] next
    to the new edge [n]. *)
Lemma retried_cycle_keeps_merged_edges :
  PutSample.requestPath (sighting ["n"]) = ["n"] /\
  getReply (vanishingStore 1) = absent /\
  accepted (traceOf (PutSample.ingest 3 "k" 1000
                       (PutSample.requestPath (sighting ["n"]))
                       vanishingStore))
    = [("k", ("", {| time := 1000; path := ["n"; "x"] |}))] /\
  getReply (agingStore 1) = found 0 ["x"] /\
  ageInDays (clock (agingStore 1)) 0 = 1 /\
  accepted (traceOf (PutSample.ingest 3 "k" 1000
                       (PutSample.requestPath (sighting ["n"]))
                       agingStore))
    = [("k", ("", {| time := 1000; path := ["n"; "x"] |}))].
Proof. repeat split; reflexivity. Qed.

(** C2 (as amended) -- A write cycle that finds no record under the key,
    or a record whose age in whole days is at least 1, adds none of the
    stored edges: the record it writes holds exactly the list the ingest
    held going into the cycle, which on the first cycle is exactly the new
    write's (lowercased) edges and on a retry is what the previous cycle
    left.  A cycle changes the list only when a record exists and its age
    is strictly less than one day. *)
Theorem staleness_policy (maxAttempts : nat) (key : string)
    (now : Z) (data : requestData) (w : nat -> storeReply)
    (i : nat) (a : attemptLog) (resp : getResult) :
  let attempts :=
    PutSample.ingest maxAttempts key now (PutSample.requestPath data) w in
  let held :=
    path (stateBefore {| time := now; path := PutSample.requestPath data |}
            attempts i) in
  attempts !! i = Some a ->
  getReply (w i) = inr resp ->
  (staleOrAbsent resp (clock (w i)) ->
   path (state a) = held /\
   events a = [Get key; Put key "" (state a) None (putReply (w i))])
  /\ (path (state a) <> held ->
      exists v old, value resp = Some v /\ metadata resp = Some old /\
                    ageInDays (clock (w i)) (time old) < 1)
  /\ (i = 0%nat -> held = map toLowerCase (default [] (data_path data))).
Proof.
  intros attempts held Ha Hget.
  pose proof (ingest_attempt _ _ _ _ _ _ _ Ha) as Hrun.
  split; [|split].
  - intros Hstale. apply isFresh_false in Hstale.
    rewrite (attempt_read_stale _ _ _ _ Hget Hstale) in Hrun.
    subst a. simpl. split; reflexivity.
  - intros Hchanged. apply isFresh_true.
    destruct (isFresh resp (clock (w i))) eqn:Hfresh; [reflexivity|].
    rewrite (attempt_read_stale _ _ _ _ Hget Hfresh) in Hrun.
    subst a. now contradiction Hchanged.
  - intros ->. reflexivity.
Qed.

(** A first cycle that finds nothing under the key writes the new edges,
    lowercased, and nothing else. *)
Lemma staleness_policy_witness :
  path (state (attempt "k" (emptyStore 0)
                 {| time := 1000;
                    path := PutSample.requestPath (sighting ["B"; "c"]) |}))
  = ["b"; "c"].
Proof.
  exact (proj1 (proj1 (staleness_policy 3 "k" 1000 (sighting ["B"; "c"])
                         emptyStore 0 _ _ eq_refl eq_refl)
                  (or_introl eq_refl))).
Defined.

(** * Retrying *)





(** * What reaches the store, and what the caller is told *)

(** The store accepts at most one record from an ingest: the one of the
    attempt that resolved, which is then the last. *)
Lemma retry_accepted (key : string) (w : nat -> storeReply)
    (maxAttempts n : nat) (m : Metadata) :
  accepted (traceOf (retry (attempt key) w maxAttempts n m)) =
    match last (retry (attempt key) w maxAttempts n m) with
    | Some a =>
        match outcome a with
        | None => [(key, ("", state a))]
        | Some _ => []
        end
    | None => []
    end.
Proof.
  revert n m. induction maxAttempts as [|k IH]; intros n m;
    [reflexivity|].
  cbn [retry]. rewrite traceOf_cons, accepted_app.
  pose proof (attempt_accepted key (w n) m) as Hacc. simpl in Hacc.
  rewrite Hacc.
  destruct (outcome (attempt key (w n) m)) as [[]|] eqn:Hout.
  - destruct (retry (attempt key) w k (S n)
                (state (attempt key (w n) m))) as [|b rest] eqn:Hrest.
    + simpl. now rewrite Hout.
    + rewrite <- Hrest. simpl accepted at 1. rewrite IH, Hrest.
      reflexivity.
  - simpl. now rewrite Hout.
  - simpl. now rewrite Hout.
Qed.

(** An ingest that does not end with an accepted write leaves the
    namespace as it was; one that does replaces the record under the key
    by the shared object of the last attempt. *)
Lemma commit_ingest (kv : gmap string (string * Metadata))
    (maxAttempts : nat) (key : string) (newTimestamp : Z)
    (newEdges : list string) (w : nat -> storeReply) :
  let attempts :=
    PutSample.ingest maxAttempts key newTimestamp newEdges w in
  commit kv (traceOf attempts) =
    match last attempts with
    | Some a =>
        match outcome a with
        | None => <[key := ("", state a)]> kv
        | Some _ => kv
        end
    | None => kv
    end.
Proof.
  intros attempts. unfold commit. subst attempts.
  unfold PutSample.ingest. rewrite retry_accepted.
  destruct (last _) as [a|]; [|reflexivity].
  now destruct (outcome a).
Qed.

Lemma settle_Accepted (attempts : list attemptLog) :
  settle attempts = Accepted <->
  exists a, last attempts = Some a /\ outcome a = None.
Proof.
  unfold settle. rewrite fmap_last. split.
  - intros H. destruct (last attempts) as [a|]; simpl in H; [|discriminate].
    exists a. split; [reflexivity|]. now destruct (outcome a) as [[]|].
  - intros (a & -> & Ha). simpl. now rewrite Ha.
Qed.

(** X5 -- An ingest that fails, by a store error or by using up its
    attempts, writes nothing: the namespace is exactly as it was. *)
Lemma failed_ingest_writes_nothing (kv : gmap string (string * Metadata))
    (maxAttempts : nat) (key : string) (newTimestamp : Z)
    (newEdges : list string) (w : nat -> storeReply) :
  let attempts :=
    PutSample.ingest maxAttempts key newTimestamp newEdges w in
  settle attempts <> Accepted -> commit kv (traceOf attempts) = kv.
Proof.
  intros attempts Hfailed. subst attempts. rewrite commit_ingest.
  destruct (last _) as [a|] eqn:Hlast; [|reflexivity].
  destruct (outcome a) eqn:Hout; [reflexivity|].
  contradiction Hfailed. apply settle_Accepted. eauto.
Qed.

(** The answer of the handler depends on the request alone. *)
Lemma onRequest_answer
    (parseLocation : jsValue -> jsValue -> option (number * number))
    (numberToString : number -> string) (maxAttempts : nat)
    (data : requestData) (now : Z) (w : nat -> storeReply) :
  answer (PutSample.onRequest parseLocation numberToString maxAttempts
            data now w)
  = match parseLocation (data_lat data) (data_lon data) with
    | Some _ => inr "OK"
    | None => inl InvalidLocation
    end.
Proof.
  unfold PutSample.onRequest.
  now destruct (parseLocation (data_lat data) (data_lon data)) as [[]|].
Qed.

(** C4 -- The handler evaluated on a well-formed sighting, for any
    [parseLocation] that accepts it, against a store whose writes fail
    with an error other than the rate limit, and against a store that
    rate-limits every write.  In both runs nothing is written, the ingest
    ends in [IngestFailed StoreUnavailable], resp. [RetriesExhausted]
    after using up the three attempts, and the caller is answered [OK]:
    the promise of [retry] is not awaited (line 17), so its rejection
    never reaches the response of line 34. *)
Theorem store_failure_is_answered_OK
    (parseLocation : jsValue -> jsValue -> option (number * number))
    (numberToString : number -> string) (lat lon : number) :
  parseLocation (data_lat (sighting ["7e"])) (data_lon (sighting ["7e"]))
    = Some (lat, lon) ->
  let broken :=
    PutSample.onRequest parseLocation numberToString 3
      (sighting ["7e"]) 1000 brokenStore in
  let limited :=
    PutSample.onRequest parseLocation numberToString 3
      (sighting ["7e"]) 1000 limitedStore in
  (answer broken = inr "OK" /\
   settle (floating broken) = IngestFailed StoreUnavailable /\
   accepted (traceOf (floating broken)) = []) /\
  (answer limited = inr "OK" /\
   settle (floating limited) = RetriesExhausted /\
   length (floating limited) = 3%nat /\
   accepted (traceOf (floating limited)) = []).
Proof.
  intros Hparse broken limited. subst broken limited.
  rewrite !(onRequest_floating _ _ _ _ _ _ _ _ Hparse).
  repeat split; reflexivity.
Qed.

(** The same two runs with the location validation of the specification
    and integers printed in decimal. *)
Lemma store_failure_is_answered_OK_witness :
  (answer (PutSample.onRequest parseLocation render 3 (sighting ["7e"])
             1000 brokenStore) = inr "OK" /\
   settle (floating (PutSample.onRequest parseLocation render 3
                       (sighting ["7e"]) 1000 brokenStore))
   = IngestFailed StoreUnavailable) /\
  (answer (PutSample.onRequest parseLocation render 3 (sighting ["7e"])
             1000 limitedStore) = inr "OK" /\
   settle (floating (PutSample.onRequest parseLocation render 3
                       (sighting ["7e"]) 1000 limitedStore))
   = RetriesExhausted).
Proof.
  pose proof (store_failure_is_answered_OK parseLocation render
                (ofZ 47) (ofZ (-122)) eq_refl) as [[H1 [H2 _]] [H3 [H4 _]]].
  exact (conj (conj H1 H2) (conj H3 H4)).
Defined.

(** * The time field *)

Lemma floating_time
    (parseLocation : jsValue -> jsValue -> option (number * number))
    (numberToString : number -> string) (maxAttempts : nat)
    (data : requestData) (now : Z) (w : nat -> storeReply) :
  let attempts :=
    floating (PutSample.onRequest parseLocation numberToString maxAttempts
                data now w) in
  Forall (fun a => time (state a) = now) attempts /\
  Forall (fun m => time m = now) (sent (traceOf attempts)) /\
  Forall (fun r => time (snd (snd r)) = now) (accepted (traceOf attempts)).
Proof.
  intros attempts.
  assert (Forall (fun a =>
            time (state a) = now /\
            Forall (fun m => time m = now) (sent (events a)) /\
            Forall (fun r => time (snd (snd r)) = now)
                   (accepted (events a))) attempts) as H.
  { subst attempts. unfold PutSample.onRequest.
    destruct (parseLocation (data_lat data) (data_lon data))
      as [[lat lon]|]; simpl; [|constructor].
    apply Forall_lookup. intros i a Ha.
    pose proof (ingest_time _ _ _ _ _ _ _ Ha) as Htime.
    pose proof (ingest_attempt _ _ _ _ _ _ _ Ha) as Hrun.
    split; [exact Htime|]. split.
    - destruct (attempt_sent (sampleKey numberToString lat lon) (w i)
                  (stateBefore {| time := now;
                                  path := PutSample.requestPath data |}
                     (PutSample.ingest maxAttempts
                        (sampleKey numberToString lat lon) now
                        (PutSample.requestPath data) w) i)) as [Hs|Hs];
        rewrite <- Hrun in Hs; rewrite Hs; repeat constructor.
      exact Htime.
    - pose proof (attempt_accepted (sampleKey numberToString lat lon) (w i)
                  (stateBefore {| time := now;
                                  path := PutSample.requestPath data |}
                     (PutSample.ingest maxAttempts
                        (sampleKey numberToString lat lon) now
                        (PutSample.requestPath data) w) i)) as Hacc.
      rewrite <- Hrun in Hacc. simpl in Hacc. rewrite Hacc.
      destruct (outcome a); repeat constructor.
      exact Htime. }
  split; [|split].
  - eapply Forall_impl; [exact H|]. now intros a [? _].
  - apply sent_traceOf. eapply Forall_impl; [exact H|]. now intros a (_ & ? & _).
  - apply accepted_traceOf. eapply Forall_impl; [exact H|].
    now intros a (_ & _ & ?).
Qed.

(** The record of the shared object, spelled out. *)
Lemma Metadata_eta (m : Metadata) :
  m = {| time := time m; path := path m |}.
Proof. now destruct m. Qed.

(** C8 -- Whatever the store returns to the reads and whether a cycle
    merges or replaces, every record the handler sends to the store, on
    the first attempt and on every retry, carries the timestamp taken when
    the request arrived ([Date.now()] of line 9); the [time] of the record
    that was read never reaches the outgoing record.  And records are
    sent: once the location is accepted the closure runs (if the budget
    allows any attempt), every attempt whose read succeeds puts one record
    under the key, stamped with that timestamp, and when the last attempt
    is accepted the record persisted under the key carries it, whatever
    the namespace held before. *)
Theorem outgoing_time_is_request_time
    (parseLocation : jsValue -> jsValue -> option (number * number))
    (numberToString : number -> string) (maxAttempts : nat)
    (data : requestData) (now : Z) (w : nat -> storeReply) :
  let attempts :=
    floating (PutSample.onRequest parseLocation numberToString maxAttempts
                data now w) in
  Forall (fun a => time (state a) = now) attempts /\
  Forall (fun m => time m = now) (sent (traceOf attempts)) /\
  Forall (fun r => time (snd (snd r)) = now) (accepted (traceOf attempts)) /\
  (forall lat lon,
     parseLocation (data_lat data) (data_lon data) = Some (lat, lon) ->
     let key := sampleKey numberToString lat lon in
     ((0 < maxAttempts)%nat ->
      attempts !! 0%nat
      = Some (attempt key (w 0%nat)
                {| time := now; path := PutSample.requestPath data |}))
     /\ (forall i a resp,
           attempts !! i = Some a -> getReply (w i) = inr resp ->
           events a
           = [Get key;
              Put key "" {| time := now; path := path (state a) |} None
                (putReply (w i))])
     /\ (forall kv a,
           last attempts = Some a -> outcome a = None ->
           commit kv (traceOf attempts) !! key
           = Some ("", {| time := now; path := path (state a) |}))).
Proof.
  intros attempts.
  destruct (floating_time parseLocation numberToString maxAttempts data
              now w) as (H1 & H2 & H3).
  split; [exact H1|]. split; [exact H2|]. split; [exact H3|].
  intros lat lon Hparse key. subst attempts.
  rewrite (onRequest_floating _ _ _ _ _ _ _ _ Hparse). simpl.
  split; [|split].
  - intros Hbudget. unfold PutSample.ingest.
    destruct maxAttempts; [lia|reflexivity].
  - intros i a resp Ha Hget.
    pose proof (ingest_time _ _ _ _ _ _ _ Ha) as Htime.
    rewrite <- Htime at 1. rewrite <- Metadata_eta.
    rewrite (ingest_attempt _ _ _ _ _ _ _ Ha).
    unfold attempt. rewrite Hget. reflexivity.
  - intros kv a Hlast Hout.
    rewrite commit_ingest, Hlast, Hout, lookup_insert_eq.
    rewrite last_lookup in Hlast.
    pose proof (ingest_time _ _ _ _ _ _ _ Hlast) as Htime.
    rewrite <- Htime at 1. now rewrite <- Metadata_eta.
Qed.

(** A record written at time 0 is under the key; the sighting arrives at
    time 1000, reads it fresh and is accepted: the record persisted is
    stamped 1000. *)
Lemma outgoing_time_is_request_time_witness :
  commit {[ "47|-122" := ("", {| time := 0; path := ["a"; "b"] |}) ]}
    (traceOf (floating (PutSample.onRequest parseLocation render 3
                          (sighting ["B"; "c"]) 1000 freshStore)))
    !! "47|-122"
  = Some ("", {| time := 1000; path := ["b"; "c"; "a"] |}).
Proof.
  exact (proj2 (proj2
           (proj2 (proj2 (proj2
              (outgoing_time_is_request_time parseLocation render 3
                 (sighting ["B"; "c"]) 1000 freshStore)))
              (ofZ 47) (ofZ (-122)) eq_refl))
           {[ "47|-122" := ("", {| time := 0; path := ["a"; "b"] |}) ]}
           _ eq_refl eq_refl).
Defined.

(** * The stored edge lists *)

(** The closure never repeats an edge in a list that had no repetition,
    whatever record it reads. *)
Lemma attempt_keeps_NoDup (key : string) (w : storeReply) (m : Metadata) :
  NoDup (path m) -> NoDup (path (state (attempt key w m))).
Proof.
  unfold attempt. destruct (getReply w) as [e|resp]; simpl; [auto|].
  destruct (isFresh resp (clock w)); simpl; [|auto].
  apply mergePath_NoDup.
Qed.

Lemma last_is_lookup {A : Type} (l : list A) (a : A) :
  last l = Some a -> exists i, l !! i = Some a.
Proof. rewrite last_lookup. eauto. Qed.

(** C5 (counterexample) -- A sighting that names the same repeater twice,
    once as [7E] and once as [7e], ingested into an empty namespace that
    accepts the write: the persisted edge list holds [7e] twice. *)
Lemma duplicate_edges_of_a_sighting_are_stored :
  commit ∅ (traceOf (PutSample.ingest 3 "k" 1000
                       (PutSample.requestPath (sighting ["7E"; "7e"]))
                       (answering ∅ "k" (fun _ => 1000) (fun _ => None))))
    !! "k"
  = Some ("", {| time := 1000; path := ["7e"; "7e"] |}) /\
  ~ noDupIgnoreCase ["7e"; "7e"].
Proof.
  split; [reflexivity|].
  unfold noDupIgnoreCase. simpl. intros Hnd.
  apply NoDup_cons in Hnd as [Hnotin _]. apply Hnotin. now left.
Qed.

(** C5 (as amended) -- In a namespace that only this handler writes to,
    so that every fresh record an ingest reads holds lowercase edges only:
    every record the ingest sends to the store holds lowercase edges only,
    and a namespace whose stored edges are all lowercase before the ingest
    has only lowercase edges after it.  If in addition no two edges of the
    sighting are equal case-insensitively, then no record the ingest sends
    holds two entries equal case-insensitively; when its last attempt is
    accepted the record persisted under its key is such a record; and a
    namespace none of whose records held such a pair before the ingest has
    none after it.  Edges repeated within one sighting are not
    eliminated. *)
Theorem stored_edges_stay_normalized
    (kv : gmap string (string * Metadata)) (maxAttempts : nat)
    (key : string) (now : Z) (data : requestData)
    (w : nat -> storeReply) :
  let attempts :=
    PutSample.ingest maxAttempts key now (PutSample.requestPath data) w in
  let kv' := commit kv (traceOf attempts) in
  (forall n, Forall isLowerCase (freshEdges (w n))) ->
  Forall (fun m => Forall isLowerCase (path m)) (sent (traceOf attempts))
  /\ (lowercased kv -> lowercased kv')
  /\ (noDupIgnoreCase (default [] (data_path data)) ->
      Forall (fun m => noDupIgnoreCase (path m)) (sent (traceOf attempts))
      /\ (forall a, last attempts = Some a -> outcome a = None ->
            exists m, kv' !! key = Some ("", m) /\
                      Forall isLowerCase (path m) /\
                      noDupIgnoreCase (path m))
      /\ (duplicateFree kv -> duplicateFree kv')).
Proof.
  intros attempts kv' Hreads.
  assert (forall i a, attempts !! i = Some a ->
            Forall isLowerCase (path (state a))) as Hlower.
  { intros i. apply (ingest_invariant maxAttempts key now
                       (PutSample.requestPath data) w
                       (fun m => Forall isLowerCase (path m))).
    - apply requestPath_lower.
    - intros j m. now apply attempt_keeps_lowercase. }
  assert (forall P : Metadata -> Prop,
            (forall i a, attempts !! i = Some a -> P (state a)) ->
            Forall P (sent (traceOf attempts))) as Hsent.
  { intros P HP. apply sent_traceOf. apply Forall_lookup. intros i a Ha.
    pose proof (HP i a Ha) as Hstate.
    rewrite (ingest_attempt _ _ _ _ _ _ _ Ha) in Hstate |- *.
    match goal with
    | |- Forall _ (sent (events (attempt ?k ?r ?m))) =>
        destruct (attempt_sent k r m) as [-> | ->]
    end; repeat constructor. exact Hstate. }
  assert (kv' = match last attempts with
                | Some a => match outcome a with
                            | None => <[key := ("", state a)]> kv
                            | Some _ => kv
                            end
                | None => kv
                end) as Hkv' by apply commit_ingest.
  split; [now apply Hsent|]. split.
  - intros Hlow. rewrite Hkv'.
    destruct (last attempts) as [a|] eqn:Hlast; [|exact Hlow].
    destruct (outcome a); [exact Hlow|].
    intros k v m Hlook. apply lookup_insert_Some in Hlook
      as [[<- [= <- <-]]|[_ Hlook]]; [|exact (Hlow _ _ _ Hlook)].
    destruct (last_is_lookup _ _ Hlast) as [i Hi]. exact (Hlower _ _ Hi).
  - intros Hnew.
    assert (forall i a, attempts !! i = Some a ->
              noDupIgnoreCase (path (state a))) as Hnodup.
    { intros i a Ha. unfold noDupIgnoreCase.
      rewrite map_lower_id by exact (Hlower _ _ Ha).
      revert a Ha.
      apply (ingest_invariant maxAttempts key now
               (PutSample.requestPath data) w
               (fun m => NoDup (path m))).
      - exact Hnew.
      - intros j m. apply attempt_keeps_NoDup. }
    split; [now apply Hsent|]. split.
    + intros a Hlast Hout. exists (state a).
      destruct (last_is_lookup _ _ Hlast) as [i Hi].
      split; [|split; [exact (Hlower _ _ Hi)|exact (Hnodup _ _ Hi)]].
      rewrite Hkv', Hlast, Hout. apply lookup_insert_eq.
    + intros Hdup. rewrite Hkv'.
      destruct (last attempts) as [a|] eqn:Hlast; [|exact Hdup].
      destruct (outcome a); [exact Hdup|].
      intros k v m Hlook. apply lookup_insert_Some in Hlook
        as [[<- [= <- <-]]|[_ Hlook]]; [|exact (Hdup _ _ _ Hlook)].
      destruct (last_is_lookup _ _ Hlast) as [i Hi]. exact (Hnodup _ _ Hi).
Qed.

(** A fresh record with edges [a], [b] under the key; the sighting brings
    [B], [c]: the record persisted holds [b], [c], [a], lowercase and
    without repetition. *)
Lemma stored_edges_stay_normalized_witness :
  exists m,
    commit knownStore
      (traceOf (PutSample.ingest 3 "k" 1000
                  (PutSample.requestPath (sighting ["B"; "c"]))
                  freshStore)) !! "k" = Some ("", m) /\
    Forall isLowerCase (path m) /\ noDupIgnoreCase (path m).
Proof.
  assert (forall n, Forall isLowerCase (freshEdges (freshStore n))) as Hreads.
  { intros n. repeat constructor. }
  assert (noDupIgnoreCase (default [] (data_path (sighting ["B"; "c"]))))
    as Hnew.
  { unfold noDupIgnoreCase. simpl. apply NoDup_cons. split.
    - intros Hin. apply list_elem_of_singleton in Hin. discriminate.
    - apply NoDup_singleton. }
  exact (proj1 (proj2 (proj2 (proj2
           (stored_edges_stay_normalized knownStore 3 "k" 1000
              (sighting ["B"; "c"]) freshStore Hreads)) Hnew))
           _ eq_refl eq_refl).
Defined.

(** * Location validation *)

Lemma finiteNumber_Some (raw : jsValue) (n : number) :
  finiteNumber raw = Some n <-> raw = JNum n /\ isFinite n = true.
Proof.
  destruct raw as [| |b|[|b|q]|s|s]; simpl; split;
    try discriminate; try (intros [[= <-] H]; discriminate).
  - intros [= <-]. split; reflexivity.
  - intros [[= <-] _]. reflexivity.
Qed.

Lemma finiteNumber_None (raw : jsValue) :
  finiteNumber raw = None <-> isFiniteNumber raw = false.
Proof.
  destruct raw as [| |b|[|b|q]|s|s]; simpl; split; congruence.
Qed.

(** C6 -- [parseLocation] fails exactly when either input is not a finite
    number.  When it succeeds the pair it returns is the pair of inputs
    unchanged, and every pair of finite numbers succeeds, whatever their
    size: there is no clamping to the geographic range.  In the handler
    the failure is the answer ([InvalidLocation]) for exactly those
    requests, and for them no store call is made. *)
Theorem parseLocation_accepts_exactly_finite_numbers
    (numberToString : number -> string) (maxAttempts : nat)
    (data : requestData) (now : Z) (w : nat -> storeReply) :
  let rawLat := data_lat data in
  let rawLon := data_lon data in
  let refused :=
    isFiniteNumber rawLat = false \/ isFiniteNumber rawLon = false in
  (parseLocation rawLat rawLon = None <-> refused)
  /\ (forall lat lon,
        parseLocation rawLat rawLon = Some (lat, lon) ->
        rawLat = JNum lat /\ rawLon = JNum lon)
  /\ (forall x y : Qc,
        rawLat = JNum (Finite x) -> rawLon = JNum (Finite y) ->
        parseLocation rawLat rawLon = Some (Finite x, Finite y))
  /\ (answer (PutSample.onRequest parseLocation numberToString maxAttempts
                data now w) = inl InvalidLocation <-> refused)
  /\ (refused ->
      floating (PutSample.onRequest parseLocation numberToString
                  maxAttempts data now w) = []).
Proof.
  intros rawLat rawLon refused.
  assert (parseLocation rawLat rawLon = None <-> refused) as Hnone.
  { unfold parseLocation, refused. rewrite <- !finiteNumber_None.
    destruct (finiteNumber rawLat), (finiteNumber rawLon);
      split; auto; try discriminate.
    intros [H|H]; discriminate. }
  split; [exact Hnone|]. split; [|split; [|split]].
  - unfold parseLocation. intros lat lon.
    destruct (finiteNumber rawLat) as [a|] eqn:Ha; [|discriminate].
    destruct (finiteNumber rawLon) as [b|] eqn:Hb; [|discriminate].
    intros [= <- <-].
    apply finiteNumber_Some in Ha as [Ha _].
    apply finiteNumber_Some in Hb as [Hb _]. now split.
  - intros x y Hx Hy. unfold parseLocation. now rewrite Hx, Hy.
  - rewrite onRequest_answer, <- Hnone. subst rawLat rawLon.
    destruct (parseLocation (data_lat data) (data_lon data)) as [[]|];
      split; congruence.
  - intros Href. apply Hnone in Href.
    now rewrite (onRequest_invalid _ _ _ _ _ _ Href).
Qed.

(** Coordinates far outside the geographic range pass unchanged. *)
Lemma parseLocation_accepts_exactly_finite_numbers_witness :
  parseLocation (JNum (ofZ 1000)) (JNum (ofZ (-5000)))
  = Some (ofZ 1000, ofZ (-5000)).
Proof.
  exact (proj1 (proj2 (proj2
           (parseLocation_accepts_exactly_finite_numbers render 3
              {| data_lat := JNum (ofZ 1000); data_lon := JNum (ofZ (-5000));
                 data_path := None |} 0 emptyStore)))
           _ _ eq_refl eq_refl).
Defined.

(** * Key derivation *)

Lemma occurs_append (c : ascii) (a b : string) :
  occurs c (a ++ b) = occurs c a || occurs c b.
Proof.
  induction a as [|c' a IH]; simpl; [reflexivity|].
  now rewrite IH, orb_assoc.
Qed.

(** A separator that occurs in neither of two prefixes cuts equal strings
    at the same place. *)
Lemma append_separator_inj (c : ascii) (a a' b b' : string) :
  occurs c a = false -> occurs c a' = false ->
  (a ++ String c b)%string = (a' ++ String c b')%string ->
  a = a' /\ b = b'.
Proof.
  revert a'. induction a as [|x a IH]; intros [|x' a'] Ha Ha' Heq;
    simpl in *.
  - injection Heq as <-. split; reflexivity.
  - injection Heq as <- _. apply orb_false_elim in Ha' as [Hx _].
    now rewrite Ascii.eqb_refl in Hx.
  - injection Heq as -> _. apply orb_false_elim in Ha as [Hx _].
    now rewrite Ascii.eqb_refl in Hx.
  - injection Heq as <- Heq.
    apply orb_false_elim in Ha as [_ Ha].
    apply orb_false_elim in Ha' as [_ Ha'].
    destruct (IH a' Ha Ha' Heq) as [-> ->]. split; reflexivity.
Qed.

(** C7 -- The key is a function of the two coordinates alone: it is built
    from their renderings and the separator, and nothing else (no clock,
    no state).  As [Number::toString] never prints a bar and prints
    different numbers differently, two coordinate pairs have the same key
    exactly when they are the same pair; in particular the bar keeps
    lat=1, lon=23 apart from lat=12, lon=3. *)
Theorem sampleKey_injective (numberToString : number -> string)
    (lat lon lat' lon' : number) :
  (forall x, occurs "|" (numberToString x) = false) ->
  (forall x y, numberToString x = numberToString y -> x = y) ->
  sampleKey numberToString lat lon = sampleKey numberToString lat' lon'
  <-> lat = lat' /\ lon = lon'.
Proof.
  intros Hbar Hinj. split.
  - unfold sampleKey. intros Heq.
    apply append_separator_inj in Heq as [Hlat Hlon]; [|apply Hbar..].
    split; now apply Hinj.
  - now intros [-> ->].
Qed.

Lemma decimal_inj (z z' : Z) : decimal z = decimal z' -> z = z'.
Proof.
  unfold decimal. intros Heq.
  apply (f_equal NilEmpty.int_of_string) in Heq.
  rewrite !NilEmpty.isi in Heq. injection Heq as Heq.
  apply (f_equal Z.of_int) in Heq. now rewrite !DecimalZ.of_to in Heq.
Qed.

Lemma string_of_uint_digits (c : ascii) (d : Decimal.uint) :
  isDecimalChar c = false -> occurs c (NilEmpty.string_of_uint d) = false.
Proof.
  intros Hc. induction d; simpl; [reflexivity|..]; rewrite IHd;
    rewrite orb_false_r; apply Ascii.eqb_neq; intros ->; discriminate.
Qed.

Lemma decimal_digits (c : ascii) (z : Z) :
  isDecimalChar c = false -> occurs c (decimal z) = false.
Proof.
  intros Hc. unfold decimal. destruct (Z.to_int z) as [d|d]; simpl.
  - now apply string_of_uint_digits.
  - rewrite string_of_uint_digits by assumption. rewrite orb_false_r.
    apply Ascii.eqb_neq. intros ->. discriminate.
Qed.

Lemma render_no_bar (x : number) : occurs "|" (render x) = false.
Proof.
  destruct x as [|[]|q]; try reflexivity. simpl.
  destruct (Qden q); rewrite ?occurs_append; simpl;
    rewrite ?decimal_digits by reflexivity; reflexivity.
Qed.

Lemma Qc_ext (q q' : Qc) :
  Qnum q = Qnum q' -> Qden q = Qden q' -> q = q'.
Proof.
  intros Hnum Hden. apply Qc_is_canon. unfold Qeq. now rewrite Hnum, Hden.
Qed.

Lemma render_special (x : number) (q : Qc) :
  isFinite x = false -> render x <> render (Finite q).
Proof.
  intros Hx Heq.
  assert (occurs "N" (render (Finite q)) = false
          /\ occurs "I" (render (Finite q)) = false) as [HN HI].
  { simpl. destruct (Qden q); rewrite ?occurs_append; simpl;
      rewrite ?decimal_digits by reflexivity; split; reflexivity. }
  rewrite <- Heq in HN, HI. destruct x as [|[]|]; discriminate.
Qed.

Lemma render_inj (x y : number) : render x = render y -> x = y.
Proof.
  destruct x as [|b|q], y as [|b'|q']; intros Heq;
    try reflexivity;
    try (now destruct b); try (now destruct b');
    try (now apply render_special in Heq);
    try (symmetry in Heq; now apply render_special in Heq).
  - destruct b, b'; try reflexivity; discriminate.
  - f_equal. simpl in Heq.
    assert (forall n (d : positive) n',
              (decimal n ++ "/" ++ decimal (Zpos d))%string <> decimal n')
      as Hslash.
    { intros n d n' H. apply (f_equal (occurs "/")) in H.
      rewrite occurs_append in H. simpl in H.
      rewrite (decimal_digits "/" n') in H by reflexivity.
      now rewrite orb_true_r in H. }
    assert (forall n (d : positive) n' (d' : positive),
              (decimal n ++ "/" ++ decimal (Zpos d))%string
              = (decimal n' ++ "/" ++ decimal (Zpos d'))%string ->
              n = n' /\ d = d') as Hfrac.
    { intros n d n' d' H.
      apply append_separator_inj in H as [Hn Hd];
        [|now apply decimal_digits..].
      apply decimal_inj in Hn, Hd. split; congruence. }
    destruct (Qden q) eqn:Hd, (Qden q') eqn:Hd';
      try (now apply Hslash in Heq);
      try (symmetry in Heq; now apply Hslash in Heq);
      try (apply Hfrac in Heq as [Hn Hp]; apply Qc_ext; congruence).
    apply decimal_inj in Heq. apply Qc_ext; congruence.
Qed.

(** With integers printed in decimal, the keys of lat=1, lon=23 and of
    lat=12, lon=3 are [1|23] and [12|3]. *)
Lemma sampleKey_injective_witness :
  sampleKey render (ofZ 1) (ofZ 23) = "1|23" /\
  sampleKey render (ofZ 12) (ofZ 3) = "12|3" /\
  (sampleKey render (ofZ 1) (ofZ 23) = sampleKey render (ofZ 12) (ofZ 3)
   <-> ofZ 1 = ofZ 12 /\ ofZ 23 = ofZ 3).
Proof.
  split; [reflexivity|]. split; [reflexivity|].
  exact (sampleKey_injective render (ofZ 1) (ofZ 23) (ofZ 12) (ofZ 3)
           render_no_bar render_inj).
Defined.

(** * Merging twice *)

(** C9 (counterexample) -- A sighting names the same repeater twice, as
    [7E] and as [7e].  Its first merge, into the fresh record [a], [b],
    leaves [7e], [7e], [a], [b]; the same sighting merged a second time
    into that record, still fresh, leaves the same list: the edge list is
    not without duplicates after the second merge. *)
Lemma twice_merged_sighting_keeps_its_duplicate :
  path (state (attempt "k" (freshStore 0)
                 {| time := 1000;
                    path := PutSample.requestPath
                              (sighting ["7E"; "7e"]) |}))
    = ["7e"; "7e"; "a"; "b"] /\
  ageInDays 2000 1000 < 1 /\
  path (state (attempt "k"
                 {| getReply := found 1000 ["7e"; "7e"; "a"; "b"];
                    clock := 2000; putReply := None |}
                 {| time := 2000;
                    path := PutSample.requestPath
                              (sighting ["7E"; "7e"]) |}))
    = ["7e"; "7e"; "a"; "b"] /\
  ~ NoDup ["7e"; "7e"; "a"; "b"].
Proof.
  repeat split; try reflexivity.
  intros Hnd. apply NoDup_cons in Hnd as [Hnotin _]. apply Hnotin. now left.
Qed.

(** C9 (as amended) -- A record written by a cycle for some new edges is
    read, fresh, by the first cycle of a later ingest of the same new
    edges: the edge list that cycle writes is the list of the record,
    entry for entry.  The second merge therefore produces the same edge
    set as the first and repeats no entry more often than the first did;
    its list is without duplicates whenever the list the first merge left
    was, which is the case whenever no two of the new edges are equal
    case-insensitively. *)
Theorem merge_is_idempotent (key : string) (data : requestData)
    (t1 t2 : Z) (w1 w2 : storeReply) (v : string) :
  let first :=
    attempt key w1 {| time := t1; path := PutSample.requestPath data |} in
  let second :=
    attempt key w2 {| time := t2; path := PutSample.requestPath data |} in
  getReply w2 = inr {| value := Some v; metadata := Some (state first) |} ->
  ageInDays (clock w2) (time (state first)) < 1 ->
  path (state second) = path (state first)
  /\ (forall p, p ∈ path (state second) <-> p ∈ path (state first))
  /\ (NoDup (path (state first)) -> NoDup (path (state second)))
  /\ (noDupIgnoreCase (default [] (data_path data)) ->
      NoDup (path (state first)) /\ NoDup (path (state second))).
Proof.
  intros first second Hget Hage.
  assert (path (state second) = path (state first)) as Heq.
  { subst second. rewrite (attempt_read_fresh _ _ _ _ Hget);
      [|apply isFresh_true; simpl; eauto].
    simpl. subst first. unfold attempt.
    destruct (getReply w1) as [e|resp]; simpl.
    - now apply mergePath_known.
    - destruct (isFresh resp (clock w1)); simpl.
      + apply mergePath_idem.
      + now apply mergePath_known. }
  rewrite Heq. split; [reflexivity|]. split; [reflexivity|].
  split; [auto|]. intros Hnew.
  assert (NoDup (path (state first))) as Hfirst.
  { subst first. apply attempt_keeps_NoDup. exact Hnew. }
  split; exact Hfirst.
Qed.

(** The record [b], [c], [a] that the merge of [B], [c] into [a], [b]
    produced, merged with [B], [c] again. *)
Lemma merge_is_idempotent_witness :
  path (state (attempt "k"
                 {| getReply := found 1000 ["b"; "c"; "a"]; clock := 2000;
                    putReply := None |}
                 {| time := 2000;
                    path := PutSample.requestPath (sighting ["B"; "c"]) |}))
  = ["b"; "c"; "a"].
Proof.
  exact (proj1 (merge_is_idempotent "k" (sighting ["B"; "c"]) 1000 2000
                  (freshStore 0)
                  {| getReply := found 1000 ["b"; "c"; "a"]; clock := 2000;
                     putReply := None |} "" eq_refl eq_refl)).
Defined.

(** * The shared metadata object *)

(** C10 -- Across the attempts of one ingest the closure works on one
    metadata object: each retry is the closure run on the object as the
    previous attempt left it, so a retry that reads a fresh record merges
    it into the list accumulated so far; every record sent to the store is
    that object; and the list only grows: the list of an earlier attempt,
    and to begin with the edges of the request, is a prefix of the list of
    every later attempt, which thus contains each of its edges. *)
Theorem shared_metadata_accumulates (maxAttempts : nat) (key : string)
    (newTimestamp : Z) (newEdges : list string) (w : nat -> storeReply) :
  let attempts :=
    PutSample.ingest maxAttempts key newTimestamp newEdges w in
  (forall i a b, attempts !! i = Some a -> attempts !! S i = Some b ->
     b = attempt key (w (S i)) (state a)
     /\ forall resp, getReply (w (S i)) = inr resp ->
          isFresh resp (clock (w (S i))) = true ->
          path (state b) = mergePath (path (state a)) (storedPath resp))
  /\ (forall i a, attempts !! i = Some a ->
        (sent (events a) = [] \/ sent (events a) = [state a])
        /\ newEdges `prefix_of` path (state a))
  /\ (forall i j a b, (i <= j)%nat ->
        attempts !! i = Some a -> attempts !! j = Some b ->
        path (state a) `prefix_of` path (state b)
        /\ forall p, p ∈ path (state a) -> p ∈ path (state b)).
Proof.
  intros attempts. split; [|split].
  - intros i a b Ha Hb.
    destruct (ingest_next _ _ _ _ _ _ _ _ Ha Hb) as [_ ->].
    split; [reflexivity|]. intros resp Hget Hfresh.
    now rewrite (attempt_read_fresh _ _ _ _ Hget Hfresh).
  - intros i a Ha. pose proof (ingest_attempt _ _ _ _ _ _ _ Ha) as Hrun.
    split.
    + rewrite Hrun. apply attempt_sent.
    + rewrite Hrun. etrans; [|apply attempt_prefix].
      apply (ingest_invariant maxAttempts key newTimestamp newEdges w
               (fun m => newEdges `prefix_of` path m)).
      * reflexivity.
      * intros j m Hm. etrans; [exact Hm|apply attempt_prefix].
  - intros i j a b Hij Ha Hb.
    pose proof (ingest_grows _ _ _ _ _ _ _ _ _ Hij Ha Hb) as Hprefix.
    split; [exact Hprefix|]. intros p Hp.
    destruct Hprefix as [more ->]. apply elem_of_app. now left.
Qed.

(** Two rate limits, each after the read of a different fresh record: the
    third write carries the edges of all three reads, not the merge of the
    third record into the edges of the request. *)
Lemma shared_metadata_accumulates_witness :
  path <$> sent (traceOf (PutSample.ingest 3 "k" 1000 ["n"] busyStore))
    = [["n"; "x"]; ["n"; "x"; "y"]; ["n"; "x"; "y"; "z"]] /\
  mergePath ["n"] ["z"] = ["n"; "z"] /\
  ["n"; "x"] `prefix_of` ["n"; "x"; "y"; "z"].
Proof.
  split; [reflexivity|]. split; [reflexivity|].
  exact (proj1 (proj2 (proj2 (shared_metadata_accumulates 3 "k" 1000 ["n"]
                                busyStore))
                  0%nat 2%nat _ _ (le_S _ _ (le_S _ _ (le_n 0)))
                  eq_refl eq_refl)).
Defined.

(** * Further properties of the handlers *)

(** ** The merge as a union *)

Lemma firstOccurrences_complete (s l : list string) (x : string) :
  x ∈ l -> x ∉ s -> x ∈ firstOccurrences s l.
Proof.
  revert s. induction l as [|q l IH]; intros s Hin Hs; [inversion Hin|].
  simpl. destruct (includes s q) eqn:Hq.
  - apply elem_of_cons in Hin as [->|Hin].
    + apply includes_true in Hq. contradiction.
    + now apply IH.
  - destruct (String.eqb_spec x q) as [->|Hne]; [now left|].
    right. apply elem_of_cons in Hin as [->|Hin]; [contradiction|].
    apply IH; [exact Hin|]. intros Hx.
    apply elem_of_app in Hx as [Hx|Hx]; [contradiction|].
    apply list_elem_of_singleton in Hx. contradiction.
Qed.

Lemma mergePath_elem_of (acc l : list string) (p : string) :
  p ∈ mergePath acc l <-> p ∈ acc \/ p ∈ l.
Proof.
  rewrite mergePath_firstOccurrences, elem_of_app. split.
  - intros [Hacc|Hnew]; [now left|].
    right. now apply firstOccurrences_fresh in Hnew as [Hl _].
  - intros [Hacc|Hl]; [now left|].
    destruct (includes acc p) eqn:Hp.
    + left. now apply includes_true.
    + right. apply firstOccurrences_complete; [exact Hl|].
      now apply includes_false.
Qed.

Lemma firstOccurrences_length (s l : list string) :
  (length (firstOccurrences s l) <= length l)%nat.
Proof.
  revert s. induction l as [|q l IH]; intros s; simpl; [lia|].
  destruct (includes s q); simpl.
  - specialize (IH s). lia.
  - specialize (IH (s ++ [q])). lia.
Qed.

(** Whatever the closure reads, the list it leaves is the list it found
    merged with the edges it took from the store. *)
Lemma attempt_path (key : string) (w : storeReply) (m : Metadata) :
  path (state (attempt key w m)) = mergePath (path m) (freshEdges w).
Proof.
  unfold attempt, freshEdges.
  destruct (getReply w) as [e|resp]; simpl; [reflexivity|].
  now destruct (isFresh resp (clock w)).
Qed.

(** The list after attempt [i] is the new edges merged, in one pass, with
    everything the attempts so far took from the store. *)
Lemma ingest_path (maxAttempts : nat) (key : string) (newTimestamp : Z)
    (newEdges : list string) (w : nat -> storeReply)
    (i : nat) (a : attemptLog) :
  PutSample.ingest maxAttempts key newTimestamp newEdges w !! i = Some a ->
  path (state a) = mergePath newEdges (readSoFar w i).
Proof.
  revert a. induction i as [|j IH]; intros a Ha.
  - apply retry_first in Ha. subst a. now rewrite attempt_path.
  - destruct (PutSample.ingest maxAttempts key newTimestamp newEdges w !! j)
      as [b|] eqn:Hb.
    + destruct (ingest_next _ _ _ _ _ _ _ _ Hb Ha) as [_ ->].
      rewrite attempt_path, (IH b eq_refl). simpl.
      now rewrite mergePath_app.
    + apply lookup_lt_Some in Ha. apply lookup_ge_None in Hb. lia.
Qed.

(** X1 -- A run of the closure that reads a fresh record leaves a list
    that holds exactly the edges it held before and the edges of the
    record: no stored edge is lost, no edge is invented.  The list grows
    by at most the number of stored edges. *)
Theorem fresh_merge_is_union (key : string) (w : storeReply)
    (m : Metadata) (resp : getResult) :
  getReply w = inr resp ->
  isFresh resp (clock w) = true ->
  (forall p, p ∈ path (state (attempt key w m))
             <-> p ∈ path m \/ p ∈ storedPath resp)
  /\ (length (path m) <= length (path (state (attempt key w m)))
      <= length (path m) + length (storedPath resp))%nat.
Proof.
  intros Hget Hfresh.
  assert (path (state (attempt key w m))
          = mergePath (path m) (storedPath resp)) as ->.
  { now rewrite (attempt_read_fresh _ _ _ _ Hget Hfresh). }
  split; [intros p; apply mergePath_elem_of|].
  rewrite mergePath_firstOccurrences, length_app.
  pose proof (firstOccurrences_length (path m) (storedPath resp)). lia.
Qed.

(** The fresh record [a], [b] read with the list [b], [c] in hand: the
    stored edge [a] is in the list the closure leaves. *)
Lemma fresh_merge_is_union_witness :
  "a" ∈ path (state (attempt "k" (freshStore 0)
                       {| time := 1000; path := ["b"; "c"] |})).
Proof.
  apply (proj1 (fresh_merge_is_union "k" (freshStore 0)
                  {| time := 1000; path := ["b"; "c"] |}
                  {| value := Some "";
                     metadata := Some {| time := 0; path := ["a"; "b"] |} |}
                  eq_refl eq_refl)).
  right. simpl. left.
Defined.

(** X2 -- The record an attempt sends does not depend on how the reads
    were spread over the retries: its edge list is the new edges merged,
    in one pass, with the concatenation of the fresh records read by this
    attempt and all the earlier ones; so it holds exactly the new edges
    and the edges of those records. *)
Theorem retried_write_merges_all_fresh_reads (maxAttempts : nat)
    (key : string) (now : Z) (data : requestData)
    (w : nat -> storeReply) (i : nat) (a : attemptLog) :
  PutSample.ingest maxAttempts key now (PutSample.requestPath data) w !! i
    = Some a ->
  path (state a) = mergePath (PutSample.requestPath data) (readSoFar w i)
  /\ forall p, p ∈ path (state a)
               <-> p ∈ PutSample.requestPath data \/ p ∈ readSoFar w i.
Proof.
  intros Ha. rewrite (ingest_path _ _ _ _ _ _ _ Ha).
  split; [reflexivity|]. intros p. apply mergePath_elem_of.
Qed.

(** Three attempts that read [x], then [y], [x], then [z]: the third
    write is the merge of [n] with [x], [y], [x], [z]. *)
Lemma retried_write_merges_all_fresh_reads_witness :
  path (state (attempt "k" (busyStore 2)
                 {| time := 1000; path := ["n"; "x"; "y"] |}))
  = mergePath ["n"] ["x"; "y"; "x"; "z"].
Proof.
  exact (proj1 (retried_write_merges_all_fresh_reads 3 "k" 1000
                  (sighting ["n"]) busyStore 2 _ eq_refl)).
Defined.

(** ** The store calls of the handler *)

Lemma traceOf_Forall (P : event -> Prop) (attempts : list attemptLog) :
  P Backoff ->
  Forall (fun a => Forall P (events a)) attempts ->
  Forall P (traceOf attempts).
Proof.
  intros Hbackoff. induction 1 as [|a rest Ha _ IH]; [constructor|].
  rewrite traceOf_cons. apply Forall_app. split; [exact Ha|].
  destruct rest; [constructor|]. now constructor.
Qed.

(** X3 -- A request whose location is refused makes no store call at
    all.  For any other request, every store call of the handler, on
    every attempt, is a read of the one key derived from the location or a
    write under that same key, with the empty string as value and no
    expiration; between them there is nothing but the backoff. *)
Theorem store_calls_use_one_key
    (parseLocation : jsValue -> jsValue -> option (number * number))
    (numberToString : number -> string) (maxAttempts : nat)
    (data : requestData) (now : Z) (w : nat -> storeReply) :
  let attempts :=
    floating (PutSample.onRequest parseLocation numberToString maxAttempts
                data now w) in
  match parseLocation (data_lat data) (data_lon data) with
  | None => attempts = []
  | Some (lat, lon) =>
      Forall (fun e =>
                e = Get (sampleKey numberToString lat lon) \/
                e = Backoff \/
                exists m r,
                  e = Put (sampleKey numberToString lat lon) "" m None r)
             (traceOf attempts)
  end.
Proof.
  intros attempts. subst attempts. unfold PutSample.onRequest.
  destruct (parseLocation (data_lat data) (data_lon data)) as [[lat lon]|];
    [|reflexivity].
  simpl. apply traceOf_Forall; [auto|].
  apply Forall_lookup. intros i a Ha.
  rewrite (ingest_attempt _ _ _ _ _ _ _ Ha).
  match goal with
  | |- Forall _ (events (attempt ?k ?r ?m)) =>
      destruct (attempt_events k r m) as [-> | ->]
  end.
  - constructor; [now left|constructor].
  - constructor; [now left|].
    constructor; [right; right; eauto|constructor].
Qed.

(** ** The namespace after an ingest *)

(** X4 -- Whatever the store answers, an ingest leaves the record of
    every key other than its own exactly as it was. *)
Theorem ingest_touches_one_key (kv : gmap string (string * Metadata))
    (maxAttempts : nat) (key : string) (newTimestamp : Z)
    (newEdges : list string) (w : nat -> storeReply) (other : string) :
  other <> key ->
  commit kv (traceOf (PutSample.ingest maxAttempts key newTimestamp
                        newEdges w)) !! other
  = kv !! other.
Proof.
  intros Hother. rewrite commit_ingest.
  destruct (last _) as [a|]; [|reflexivity].
  destruct (outcome a); [reflexivity|].
  now apply lookup_insert_ne.
Qed.

(** A sighting ingested under another key leaves the record of [k]. *)
Lemma ingest_touches_one_key_witness :
  commit knownStore
    (traceOf (PutSample.ingest 3 "elsewhere" 1000 ["n"] emptyStore)) !! "k"
  = knownStore !! "k".
Proof.
  apply (ingest_touches_one_key knownStore 3 "elsewhere" 1000 ["n"]
           emptyStore "k").
  discriminate.
Defined.

(** A store that rate-limits all three attempts: the namespace is
    unchanged. *)
Lemma failed_ingest_writes_nothing_witness :
  commit knownStore
    (traceOf (PutSample.ingest 3 "k" 1000 ["n"] limitedStore))
  = knownStore.
Proof.
  apply (failed_ingest_writes_nothing knownStore 3 "k" 1000 ["n"]
           limitedStore).
  discriminate.
Defined.

(** The record an accepted ingest leaves under its key. *)
Lemma ingest_commits (kv : gmap string (string * Metadata))
    (maxAttempts : nat) (key : string) (now : Z)
    (newEdges : list string) (w : nat -> storeReply) (a : attemptLog) :
  let attempts := PutSample.ingest maxAttempts key now newEdges w in
  last attempts = Some a -> outcome a = None ->
  commit kv (traceOf attempts)
  = <[key := ("", {| time := now;
                     path := mergePath newEdges
                               (readSoFar w (pred (length attempts))) |})]>
      kv.
Proof.
  intros attempts Hlast Hout. subst attempts.
  rewrite commit_ingest, Hlast, Hout.
  rewrite last_lookup in Hlast.
  rewrite <- (ingest_path _ _ _ _ _ _ _ Hlast).
  rewrite <- (ingest_time _ _ _ _ _ _ _ Hlast).
  now destruct (state a).
Qed.

Lemma freshEdges_answering_fresh (kv : gmap string (string * Metadata))
    (key : string) (clockAt : nat -> Z) (verdict : nat -> option storeError)
    (v : string) (old : Metadata) (n : nat) :
  kv !! key = Some (v, old) ->
  ageInDays (clockAt n) (time old) < 1 ->
  freshEdges (answering kv key clockAt verdict n) = path old.
Proof.
  intros Hlook Hage. unfold freshEdges, answering, getWithMetadata. simpl.
  rewrite Hlook. unfold isFresh. simpl.
  apply Z.ltb_lt in Hage. now rewrite Hage.
Qed.

Lemma freshEdges_answering_stale (kv : gmap string (string * Metadata))
    (key : string) (clockAt : nat -> Z) (verdict : nat -> option storeError)
    (n : nat) :
  staleOrAbsent (getWithMetadata kv key) (clockAt n) ->
  freshEdges (answering kv key clockAt verdict n) = [].
Proof.
  intros Hstale. apply isFresh_false in Hstale.
  unfold freshEdges, answering. simpl. now rewrite Hstale.
Qed.

Lemma readSoFar_same (w : nat -> storeReply) (l acc : list string)
    (i : nat) :
  (forall n, freshEdges (w n) = l) ->
  mergePath acc (readSoFar w i) = mergePath acc l.
Proof.
  intros Hsame. induction i as [|j IH]; simpl; [now rewrite Hsame|].
  rewrite mergePath_app, IH, Hsame.
  apply mergePath_known. intros x Hx. apply mergePath_elem_of. now right.
Qed.

(** X6 -- Round trip through a namespace no one else writes to: when the
    key holds a record that is fresh at every attempt and the last attempt
    is accepted, the next read of the key returns the empty value and a
    record stamped with the time of the request whose edges are the new
    edges merged with those of the old record. *)
Theorem ingest_into_fresh_record (kv : gmap string (string * Metadata))
    (maxAttempts : nat) (key : string) (now : Z) (data : requestData)
    (clockAt : nat -> Z) (verdict : nat -> option storeError)
    (v : string) (old : Metadata) (a : attemptLog) :
  let attempts :=
    PutSample.ingest maxAttempts key now (PutSample.requestPath data)
      (answering kv key clockAt verdict) in
  kv !! key = Some (v, old) ->
  (forall n, ageInDays (clockAt n) (time old) < 1) ->
  last attempts = Some a -> outcome a = None ->
  getWithMetadata (commit kv (traceOf attempts)) key
  = {| value := Some "";
       metadata :=
         Some {| time := now;
                 path := mergePath (PutSample.requestPath data)
                           (path old) |} |}.
Proof.
  intros attempts Hlook Hfresh Hlast Hout. subst attempts.
  rewrite (ingest_commits _ _ _ _ _ _ _ Hlast Hout).
  unfold getWithMetadata. rewrite lookup_insert_eq.
  rewrite (readSoFar_same _ (path old)); [reflexivity|].
  intros n. now apply (freshEdges_answering_fresh _ _ _ _ v).
Qed.

(** The record [a], [b] of [knownStore], a sighting with [B], [c]. *)
Lemma ingest_into_fresh_record_witness :
  getWithMetadata
    (commit knownStore
       (traceOf (PutSample.ingest 3 "k" 1000
                   (PutSample.requestPath (sighting ["B"; "c"]))
                   (answering knownStore "k" (fun _ => 1000)
                      (fun _ => None))))) "k"
  = {| value := Some "";
       metadata := Some {| time := 1000; path := ["b"; "c"; "a"] |} |}.
Proof.
  exact (ingest_into_fresh_record knownStore 3 "k" 1000
           (sighting ["B"; "c"]) (fun _ => 1000) (fun _ => None)
           "" {| time := 0; path := ["a"; "b"] |} _
           eq_refl (fun _ => eq_refl) eq_refl eq_refl).
Defined.

(** X7 -- Round trip, the other branch: when the key holds nothing, or a
    record that is at least a day old at every attempt, and the last
    attempt is accepted, the next read of the key returns a record with
    the time of the request and exactly the lowercased edges of the
    sighting; the old record is gone. *)
Theorem ingest_replaces_stale_or_absent_record
    (kv : gmap string (string * Metadata))
    (maxAttempts : nat) (key : string) (now : Z) (data : requestData)
    (clockAt : nat -> Z) (verdict : nat -> option storeError)
    (a : attemptLog) :
  let attempts :=
    PutSample.ingest maxAttempts key now (PutSample.requestPath data)
      (answering kv key clockAt verdict) in
  (forall n, staleOrAbsent (getWithMetadata kv key) (clockAt n)) ->
  last attempts = Some a -> outcome a = None ->
  getWithMetadata (commit kv (traceOf attempts)) key
  = {| value := Some "";
       metadata :=
         Some {| time := now; path := PutSample.requestPath data |} |}.
Proof.
  intros attempts Hstale Hlast Hout. subst attempts.
  rewrite (ingest_commits _ _ _ _ _ _ _ Hlast Hout).
  unfold getWithMetadata. rewrite lookup_insert_eq.
  rewrite (readSoFar_same _ []); [reflexivity|].
  intros n. now apply freshEdges_answering_stale.
Qed.

(** The record of [knownStore], written at time 0, read two days later. *)
Lemma ingest_replaces_stale_or_absent_record_witness :
  getWithMetadata
    (commit knownStore
       (traceOf (PutSample.ingest 3 "k" (2 * dayInMillis)
                   (PutSample.requestPath (sighting ["B"; "c"]))
                   (answering knownStore "k" (fun _ => 2 * dayInMillis)
                      (fun _ => None))))) "k"
  = {| value := Some "";
       metadata :=
         Some {| time := 2 * dayInMillis; path := ["b"; "c"] |} |}.
Proof.
  eapply (ingest_replaces_stale_or_absent_record knownStore 3 "k"
            (2 * dayInMillis) (sighting ["B"; "c"])
            (fun _ => 2 * dayInMillis) (fun _ => None)).
  - intros n. right. right.
    exists {| time := 0; path := ["a"; "b"] |}.
    split; [reflexivity|]. vm_compute. discriminate.
  - reflexivity.
  - reflexivity.
Defined.

(** X8 -- Two sightings of one place, the second less than a day after
    the first, both accepted, starting from a key that holds nothing: the
    record that results carries the time of the second sighting, and its
    edges are those of the second sighting followed by the edges of the
    first that the second does not repeat. *)
Theorem two_sightings_within_a_day
    (kv : gmap string (string * Metadata)) (maxAttempts : nat)
    (key : string) (now1 now2 : Z) (data1 data2 : requestData)
    (clock1 clock2 : nat -> Z) (verdict1 verdict2 : nat -> option storeError)
    (a1 a2 : attemptLog) :
  let first :=
    PutSample.ingest maxAttempts key now1 (PutSample.requestPath data1)
      (answering kv key clock1 verdict1) in
  let kv1 := commit kv (traceOf first) in
  let second :=
    PutSample.ingest maxAttempts key now2 (PutSample.requestPath data2)
      (answering kv1 key clock2 verdict2) in
  kv !! key = None ->
  last first = Some a1 -> outcome a1 = None ->
  (forall n, ageInDays (clock2 n) now1 < 1) ->
  last second = Some a2 -> outcome a2 = None ->
  commit kv1 (traceOf second) !! key
  = Some ("", {| time := now2;
                 path := mergePath (PutSample.requestPath data2)
                           (PutSample.requestPath data1) |}).
Proof.
  intros first kv1 second Hnone Hlast1 Hout1 Hfresh Hlast2 Hout2.
  assert (kv1 !! key
          = Some ("", {| time := now1;
                         path := PutSample.requestPath data1 |})) as Hkv1.
  { subst kv1 first. rewrite (ingest_commits _ _ _ _ _ _ _ Hlast1 Hout1).
    rewrite lookup_insert_eq.
    rewrite (readSoFar_same _ []); [reflexivity|].
    intros n. apply freshEdges_answering_stale. left.
    unfold getWithMetadata. now rewrite Hnone. }
  subst second. rewrite (ingest_commits _ _ _ _ _ _ _ Hlast2 Hout2).
  rewrite lookup_insert_eq.
  rewrite (readSoFar_same _ (PutSample.requestPath data1)); [reflexivity|].
  intros n. now apply (freshEdges_answering_fresh _ _ _ _ _ _ _ Hkv1).
Qed.

(** First [a], [b] at time 1000, then [B], [c] at time 2000, into an
    empty namespace. *)
Lemma two_sightings_within_a_day_witness :
  commit
    (commit ∅
       (traceOf (PutSample.ingest 3 "k" 1000
                   (PutSample.requestPath (sighting ["a"; "b"]))
                   (answering ∅ "k" (fun _ => 1000) (fun _ => None)))))
    (traceOf
       (PutSample.ingest 3 "k" 2000
          (PutSample.requestPath (sighting ["B"; "c"]))
          (answering
             (commit ∅
                (traceOf (PutSample.ingest 3 "k" 1000
                            (PutSample.requestPath (sighting ["a"; "b"]))
                            (answering ∅ "k" (fun _ => 1000)
                               (fun _ => None)))))
             "k" (fun _ => 2000) (fun _ => None)))) !! "k"
  = Some ("", {| time := 2000; path := ["b"; "c"; "a"] |}).
Proof.
  exact (two_sightings_within_a_day ∅ 3 "k" 1000 2000
           (sighting ["a"; "b"]) (sighting ["B"; "c"])
           (fun _ => 1000) (fun _ => 2000) (fun _ => None) (fun _ => None)
           _ _ eq_refl eq_refl eq_refl (fun _ => eq_refl) eq_refl eq_refl).
Defined.

(** X9 -- A sighting without edges (no [path], or an empty one) that is
    accepted on a record fresh at every attempt changes nothing but the
    time: the record keeps its edges, each once and in their order, and
    is stamped with the time of the request. *)
Theorem empty_sighting_restamps_fresh_record
    (kv : gmap string (string * Metadata))
    (maxAttempts : nat) (key : string) (now : Z) (data : requestData)
    (clockAt : nat -> Z) (verdict : nat -> option storeError)
    (v : string) (old : Metadata) (a : attemptLog) :
  let attempts :=
    PutSample.ingest maxAttempts key now (PutSample.requestPath data)
      (answering kv key clockAt verdict) in
  data_path data = None \/ data_path data = Some [] ->
  kv !! key = Some (v, old) ->
  (forall n, ageInDays (clockAt n) (time old) < 1) ->
  last attempts = Some a -> outcome a = None ->
  commit kv (traceOf attempts) !! key
  = Some ("", {| time := now; path := firstOccurrences [] (path old) |})
  /\ (NoDup (path old) ->
      commit kv (traceOf attempts) !! key
      = Some ("", {| time := now; path := path old |})).
Proof.
  intros attempts Hempty Hlook Hfresh Hlast Hout. subst attempts.
  assert (PutSample.requestPath data = []) as Hnil.
  { unfold PutSample.requestPath. now destruct Hempty as [-> | ->]. }
  rewrite Hnil in *.
  assert (commit kv
            (traceOf (PutSample.ingest maxAttempts key now []
                        (answering kv key clockAt verdict))) !! key
          = Some ("", {| time := now;
                         path := firstOccurrences [] (path old) |})) as Heq.
  { rewrite (ingest_commits _ _ _ _ _ _ _ Hlast Hout).
    rewrite lookup_insert_eq.
    rewrite (readSoFar_same _ (path old)).
    - now rewrite mergePath_firstOccurrences.
    - intros n. now apply (freshEdges_answering_fresh _ _ _ _ v). }
  split; [exact Heq|]. intros Hnd. rewrite Heq.
  rewrite firstOccurrences_id; [reflexivity|exact Hnd|].
  intros x _ Hx. inversion Hx.
Qed.

(** A sighting without [path] on the record [a], [b] of [knownStore]. *)
Lemma empty_sighting_restamps_fresh_record_witness :
  commit knownStore
    (traceOf (PutSample.ingest 3 "k" 1000
                (PutSample.requestPath
                   {| data_lat := JNum (ofZ 47); data_lon := JNum (ofZ 8);
                      data_path := None |})
                (answering knownStore "k" (fun _ => 1000)
                   (fun _ => None)))) !! "k"
  = Some ("", {| time := 1000; path := ["a"; "b"] |}).
Proof.
  exact (proj1 (empty_sighting_restamps_fresh_record knownStore 3 "k" 1000
                  {| data_lat := JNum (ofZ 47); data_lon := JNum (ofZ 8);
                     data_path := None |}
                  (fun _ => 1000) (fun _ => None)
                  "" {| time := 0; path := ["a"; "b"] |} _
                  (or_introl eq_refl) eq_refl (fun _ => eq_refl)
                  eq_refl eq_refl)).
Defined.

(** ** More on the merge and on the write *)

Lemma pushIfAbsent_elem_of (acc : list string) (q x : string) :
  x ∈ pushIfAbsent acc q <-> x ∈ acc \/ x = q.
Proof.
  unfold pushIfAbsent. destruct (includes acc q) eqn:Hq.
  - apply includes_true in Hq. split; [now left|].
    intros [H | ->]; assumption.
  - rewrite elem_of_app, list_elem_of_singleton. reflexivity.
Qed.

(** Edges already met can be dropped from the list to merge. *)
Lemma mergePath_skip_known (acc b c : list string) :
  (forall x, x ∈ b -> x ∈ acc) ->
  mergePath acc (firstOccurrences b c) = mergePath acc c.
Proof.
  revert acc b. induction c as [|q c IH]; intros acc b Hb; [reflexivity|].
  cbn [firstOccurrences]. destruct (includes b q) eqn:Hq.
  - rewrite mergePath_cons. unfold pushIfAbsent.
    assert (includes acc q = true) as ->.
    { apply includes_true, Hb. now apply includes_true. }
    now apply IH.
  - rewrite !mergePath_cons. apply IH. intros x Hx.
    apply pushIfAbsent_elem_of. apply elem_of_app in Hx as [Hx|Hx].
    + left. now apply Hb.
    + right. now apply list_elem_of_singleton in Hx.
Qed.

(** X16 -- Merging is associative, and the empty list is neutral on the
    right: merging a list into the result of an earlier merge gives the
    same edge list, in the same order, as merging the two older lists
    first.  The record left by a run of sightings less than a day apart
    therefore does not depend on how the merges were grouped. *)
Theorem mergePath_assoc (a b c : list string) :
  mergePath a (mergePath b c) = mergePath (mergePath a b) c
  /\ mergePath a [] = a.
Proof.
  split; [|reflexivity].
  rewrite (mergePath_firstOccurrences b c), mergePath_app.
  apply mergePath_skip_known. intros x Hx.
  apply mergePath_elem_of. now right.
Qed.

(** The number of entries of [l] equal to [p]. *)
Lemma occurrences_app (p : string) (l1 l2 : list string) :
  length (filter (fun q => q = p) (l1 ++ l2))
  = (length (filter (fun q => q = p) l1)
     + length (filter (fun q => q = p) l2))%nat.
Proof. now rewrite filter_app, length_app. Qed.

Lemma occurrences_NoDup (p : string) (l : list string) :
  NoDup l ->
  length (filter (fun q => q = p) l) = if includes l p then 1%nat else 0%nat.
Proof.
  induction 1 as [|q l Hq Hnd IH]; [reflexivity|].
  unfold includes in *. simpl.
  destruct (String.eqb_spec p q) as [->|Hne].
  - rewrite filter_cons_True by reflexivity. simpl. rewrite IH.
    assert (existsb (String.eqb q) l = false) as ->; [|reflexivity].
    now apply includes_false.
  - rewrite filter_cons_False by congruence. now rewrite IH.
Qed.

(** X17 -- The merge never adds a second copy of an edge: an edge the
    list already holds keeps the number of occurrences it had, whatever
    the stored record contains, and an edge it does not hold ends up in
    it exactly once if the record has it (however often) and not at all
    otherwise. *)
Theorem mergePath_occurrences (acc l : list string) (p : string) :
  length (filter (fun q => q = p) (mergePath acc l))
  = if includes acc p then length (filter (fun q => q = p) acc)
    else if includes l p then 1%nat else 0%nat.
Proof.
  rewrite mergePath_firstOccurrences, occurrences_app.
  rewrite (occurrences_NoDup p (firstOccurrences acc l))
    by apply firstOccurrences_NoDup.
  destruct (includes acc p) eqn:Hacc.
  - assert (includes (firstOccurrences acc l) p = false) as ->; [|lia].
    apply includes_false. intros Hin.
    apply firstOccurrences_fresh in Hin as [_ Hin].
    now apply includes_true in Hacc.
  - assert (length (filter (fun q => q = p) acc) = 0%nat) as ->.
    { apply includes_false in Hacc. clear -Hacc.
      induction acc as [|q acc IH]; [reflexivity|].
      apply not_elem_of_cons in Hacc as [Hne Hacc].
      rewrite filter_cons_False by congruence. now apply IH. }
    simpl. destruct (includes l p) eqn:Hl.
    + assert (includes (firstOccurrences acc l) p = true) as ->;
        [|reflexivity].
      apply includes_true. apply firstOccurrences_complete.
      * now apply includes_true.
      * now apply includes_false.
    + assert (includes (firstOccurrences acc l) p = false) as ->;
        [|reflexivity].
      apply includes_false. intros Hin.
      apply firstOccurrences_fresh in Hin as [Hin _].
      apply includes_false in Hl. contradiction.
Qed.

(** X15 -- The write is unconditional: once the last attempt is accepted,
    the record under the key is determined by the request and by what the
    attempts read, and by nothing the namespace holds at the time of the
    write.  A record another writer stored between the read and the write
    is overwritten, its edges included. *)
Theorem accepted_write_overwrites (kv : gmap string (string * Metadata))
    (maxAttempts : nat) (key : string) (now : Z) (data : requestData)
    (w : nat -> storeReply) (a : attemptLog) :
  let attempts :=
    PutSample.ingest maxAttempts key now (PutSample.requestPath data) w in
  last attempts = Some a -> outcome a = None ->
  commit kv (traceOf attempts) !! key
  = Some ("", {| time := now;
                 path := mergePath (PutSample.requestPath data)
                           (readSoFar w (pred (length attempts))) |}).
Proof.
  intros attempts Hlast Hout. subst attempts.
  rewrite (ingest_commits _ _ _ _ _ _ _ Hlast Hout).
  apply lookup_insert_eq.
Qed.

(** The namespace holds [a], [b] under the key, but the read of the
    ingest saw nothing there: after the write the record holds [n] only.
*)
Lemma accepted_write_overwrites_witness :
  commit knownStore
    (traceOf (PutSample.ingest 3 "k" 1000
                (PutSample.requestPath (sighting ["n"])) emptyStore))
    !! "k"
  = Some ("", {| time := 1000; path := ["n"] |}).
Proof.
  exact (accepted_write_overwrites knownStore 3 "k" 1000 (sighting ["n"])
           emptyStore _ eq_refl eq_refl).
Defined.
